(** * Goldfish: a Connect-Four board and its negamax engine

    A shallow embedding of [game.py] (class [C4Board]) and [engine.py]
    (class [C4Engine]), followed by the properties of the board encoding,
    of move application and of the search that the specification states.

    Python integers are [Z]; Python lists are [list], indexed with Python's
    rules (negative indices count from the end, anything else out of range
    raises [IndexError]); a [str] is a [list ascii], a string of characters
    of code points 0 to 255; the transposition table, a [dict] keyed by
    strings, is a [gmap].  Methods mutate their object, so they are state
    transformers that return an outcome (a value or a raised exception)
    together with the state the object is left in.  What the methods print
    and the interpreter's limit on the depth of recursion are left out. *)

From Stdlib Require Import ZArith List Ascii String Bool Lia Sorted.
From stdpp Require Import base list gmap strings pretty.

Local Open Scope Z_scope.

(** ** The fragment of Python the two classes use *)

Module Py.

(** The built-in exceptions that the code can raise. *)
Inductive exn : Set := IndexError | ValueError.

(** The name of the class of an exception, as [type(e).__name__] gives it. *)
Definition exn_name (e : exn) : string :=
  match e with
  | IndexError => "IndexError"
  | ValueError => "ValueError"
  end.

Inductive outcome (A : Type) : Type :=
| Ok (a : A)
| Raise (e : exn).
Arguments Ok {A} a.
Arguments Raise {A} e.

(** Expressions that read but do not write: they yield a value or raise. *)
Definition obind {A B} (o : outcome A) (k : A -> outcome B) : outcome B :=
  match o with
  | Ok a => k a
  | Raise e => Raise e
  end.

(** Statements on an object of type [S]: the state is kept when an
    exception is raised, as a mutated Python object stays mutated. *)
Definition M (S A : Type) : Type := S -> outcome A * S.

Definition ret {S A} (a : A) : M S A := fun s => (Ok a, s).

Definition bind {S A B} (m : M S A) (k : A -> M S B) : M S B :=
  fun s =>
    match m s with
    | (Ok a, s') => k a s'
    | (Raise e, s') => (Raise e, s')
    end.

Definition raise {S A} (e : exn) : M S A := fun s => (Raise e, s).

Definition get {S} : M S S := fun s => (Ok s, s).

Definition modify {S} (f : S -> S) : M S unit := fun s => (Ok tt, f s).

(** Evaluate a reading expression in the current state. *)
Definition eval {S A} (f : S -> outcome A) : M S A := fun s => (f s, s).

Abbreviation str := (list ascii).

Definition len {A} (l : list A) : Z := Z.of_nat (length l).

(** [l[i]]: the position an index denotes. *)
Definition index {A} (l : list A) (i : Z) : outcome nat :=
  let k := if i <? 0 then i + len l else i in
  if (k <? 0) || (len l <=? k) then Raise IndexError else Ok (Z.to_nat k).

Definition getitem {A} (l : list A) (i : Z) : outcome A :=
  obind (index l i) (fun k =>
    match l !! k with
    | Some x => Ok x
    | None => Raise IndexError
    end).

(** [range(a, b)]; [range(n)] is [range 0 n]. *)
Definition range (a b : Z) : list Z := seqZ a (b - a).

(** [s[:k]] *)
Definition slice_to {A} (l : list A) (k : Z) : list A :=
  let stop := if k <? 0 then Z.max 0 (len l + k) else Z.min k (len l) in
  take (Z.to_nat stop) l.

(** [s.split(sep)] for a separator of one character. *)
Fixpoint split (sep : ascii) (s : str) : list str :=
  match s with
  | [] => [[]]
  | c :: s' =>
      if Ascii.eqb c sep then [] :: split sep s'
      else match split sep s' with
           | w :: ws => (c :: w) :: ws
           | [] => [[c]]
           end
  end.

(** [sep.join(l)] *)
Fixpoint join (sep : str) (l : list str) : str :=
  match l with
  | [] => []
  | [w] => w
  | w :: ws => w ++ sep ++ join sep ws
  end.

(** [int(c)] for a string of one ASCII character: a decimal digit or
    [ValueError]. *)
Definition int_of_char (c : ascii) : outcome Z :=
  let n := Z.of_nat (nat_of_ascii c) in
  if (48 <=? n) && (n <=? 57) then Ok (n - 48) else Raise ValueError.

(** [max(l)] of a sequence of integers: [ValueError] when it is empty. *)
Definition max_of (l : list Z) : outcome Z :=
  match l with
  | [] => Raise ValueError
  | x :: xs => Ok (fold_left Z.max xs x)
  end.

(** [for x in l: body], where [body] may [return] a value from the enclosing
    function ([Some]) or fall through to the next iteration ([None]). *)
Fixpoint for_return {X R} (l : list X) (body : X -> outcome (option R))
  : outcome (option R) :=
  match l with
  | [] => Ok None
  | x :: l' =>
      obind (body x) (fun r =>
        match r with
        | Some v => Ok (Some v)
        | None => for_return l' body
        end)
  end.

(** [a and b], [b] evaluated only when [a] is true. *)
Definition and_then (a b : outcome bool) : outcome bool :=
  obind a (fun x => if x then b else Ok false).

(** The chained comparison [a == b == c == d] on booleans. *)
Definition chain_eq4 (a b c d : outcome bool) : outcome bool :=
  obind a (fun x => obind b (fun y =>
    if negb (Bool.eqb x y) then Ok false else
    obind c (fun z =>
      if negb (Bool.eqb y z) then Ok false else
      obind d (fun w => Ok (Bool.eqb z w))))).

(** [range(start, stop, -1)] *)
Definition range_desc (start stop : Z) : list Z :=
  rev (seqZ (stop + 1) (start - stop)).

(** [for x in l: s = body(x, s)], for a local [s] that the body extends. *)
Fixpoint for_acc {X S} (l : list X) (body : X -> S -> outcome S) (s : S)
  : outcome S :=
  match l with
  | [] => Ok s
  | x :: l' => obind (body x s) (for_acc l' body)
  end.

(** The characters [\x1b] and [\n]. *)
Definition ESC : ascii := ascii_of_nat 27.
Definition NL : ascii := ascii_of_nat 10.

End Py.

Import Py.

Declare Scope py_scope.
Delimit Scope py_scope with py.
Notation "'let!' x ':=' o 'in' k" := (obind o (fun x => k))
  (at level 10, x name, o at level 100, k at level 200, only parsing).
Notation "x <- m ;; k" := (bind m (fun x => k))
  (at level 100, m at next level, right associativity, only parsing) : py_scope.
Notation "m ;;; k" := (bind m (fun _ => k))
  (at level 100, right associativity, only parsing) : py_scope.
Notation "'s!' x" := (list_ascii_of_string x) (at level 1, x at level 0, only parsing).

Local Open Scope py_scope.

(** ** [game.py]: the board *)

Module Game.

(** The attributes of a [C4Board].  A piece is [false] for Player 1 and
    [true] for Player 2; a column lists its pieces from the bottom up.
    [size] is the pair [(cols, rows)].  [_result] is 0 while the game is
    open, 1 for a draw, 2 and 3 for a win of Player 1 and of Player 2. *)
Record C4Board : Type := mkBoard {
  _board : list (list bool);
  size : Z * Z;
  connect_num : Z;
  _result : Z;
  _win_reason : Z;
  _turn : bool;
  win_locs : list (Z * Z)
}.

Definition set_board (v : list (list bool)) (b : C4Board) : C4Board :=
  mkBoard v (size b) (connect_num b) (_result b) (_win_reason b) (_turn b)
          (win_locs b).

Definition set_turn_flag (v : bool) (b : C4Board) : C4Board :=
  mkBoard (_board b) (size b) (connect_num b) (_result b) (_win_reason b) v
          (win_locs b).

Definition set_result (v : Z) (b : C4Board) : C4Board :=
  mkBoard (_board b) (size b) (connect_num b) v (_win_reason b) (_turn b)
          (win_locs b).

Definition set_win_reason (v : Z) (b : C4Board) : C4Board :=
  mkBoard (_board b) (size b) (connect_num b) (_result b) v (_turn b)
          (win_locs b).

Definition set_win_locs (v : list (Z * Z)) (b : C4Board) : C4Board :=
  mkBoard (_board b) (size b) (connect_num b) (_result b) (_win_reason b)
          (_turn b) v.

(** [C4Board(cols, rows, connect_num)] *)
Definition init (cols rows connect_num : Z) : C4Board :=
  {| _board := map (fun _ => []) (range 0 cols);
     size := (cols, rows);
     connect_num := connect_num;
     _result := 0;
     _win_reason := 0;
     _turn := false;
     win_locs := [] |}.

(** [len(self._board[i]) > j] *)
Definition taller (b : C4Board) (i j : Z) : outcome bool :=
  let! c := getitem (_board b) i in Ok (j <? len c).

(** [self._board[i][j]] *)
Definition cell (b : C4Board) (i j : Z) : outcome bool :=
  let! c := getitem (_board b) i in getitem c j.

(** [3 if self._board[i][j] else 2 if self._board[i][j] == False else 0] *)
Definition winner_at (b : C4Board) (i j : Z) : outcome Z :=
  let! p := cell b i j in
  if p then Ok 3 else
  let! q := cell b i j in
  if Bool.eqb q false then Ok 2 else Ok 0.

(** The test of one family of lines at [(i, j)]: the four height guards,
    then the chained comparison of four cells. *)
Definition line4 (b : C4Board) (i j : Z) (di dj : Z -> Z -> Z) : outcome bool :=
  and_then (taller b i j)
 (and_then (taller b (di i 1) (dj j 1))
 (and_then (taller b (di i 2) (dj j 2))
 (and_then (taller b (di i 3) (dj j 3))
   (chain_eq4 (cell b i j) (cell b (di i 1) (dj j 1))
              (cell b (di i 2) (dj j 2)) (cell b (di i 3) (dj j 3)))))).

(** The body of the three two-dimensional scans: report the owner of the
    cell at [(i, j)] when the test holds there. *)
Definition report (b : C4Board) (test : outcome bool) (i j : Z)
  : outcome (option Z) :=
  let! t := test in
  if t then (let! w := winner_at b i j in Ok (Some w)) else Ok None.

(** First loop nest of [check_result]: cells [(i+k, j+k)]. *)
Definition scan_rising (b : C4Board) : outcome (option Z) :=
  for_return (range 0 (fst (size b) - connect_num b + 1)) (fun i =>
    let! c := getitem (_board b) i in
    for_return (range 0 (len c - connect_num b + 1)) (fun j =>
      report b (line4 b i j Z.add Z.add) i j)).

(** Second loop nest: cells [(i+k, j-k)]. *)
Definition scan_falling (b : C4Board) : outcome (option Z) :=
  for_return (range 0 (fst (size b) - connect_num b + 1)) (fun i =>
    let! c := getitem (_board b) i in
    for_return (range (connect_num b - 1) (len c)) (fun j =>
      report b (line4 b i j Z.add Z.sub) i j)).

(** Third loop nest: cells [(i+k, j)]. *)
Definition scan_row (b : C4Board) : outcome (option Z) :=
  for_return (range 0 (fst (size b) - connect_num b + 1)) (fun i =>
    let! c := getitem (_board b) i in
    for_return (range 0 (len c)) (fun j =>
      report b (line4 b i j Z.add (fun j _ => j)) i j)).

(** Fourth loop nest: cells [(col, piece+k)], with no height guards. *)
Definition scan_column (b : C4Board) : outcome (option Z) :=
  for_return (range 0 (len (_board b))) (fun col =>
    let! c := getitem (_board b) col in
    if len c <? connect_num b then Ok None else
    let! c' := getitem (_board b) col in
    for_return (range 0 (len c' - connect_num b + 1)) (fun piece =>
      report b (chain_eq4 (cell b col piece) (cell b col (piece + 1))
                          (cell b col (piece + 2)) (cell b col (piece + 3)))
             col piece)).

(** The four scans in the order of the source; the first that returns a
    value ends the search. *)
Fixpoint first_found (scans : list (C4Board -> outcome (option Z)))
  (b : C4Board) : outcome (option Z) :=
  match scans with
  | [] => Ok None
  | f :: fs =>
      let! r := f b in
      match r with
      | Some v => Ok (Some v)
      | None => first_found fs b
      end
  end.

Definition all_full (b : C4Board) : bool :=
  forallb (fun c => len c =? snd (size b)) (_board b).

Definition check_result : M C4Board unit :=
  fun b =>
    if all_full b then (Ok tt, set_result 1 b) else
    match first_found [scan_rising; scan_falling; scan_row; scan_column] b with
    | Raise e => (Raise e, b)
    | Ok (Some r) => (Ok tt, set_result r b)
    | Ok None => (Ok tt, set_result 0 b)
    end.

(** [self._board[col].append(x)] and [self._board[col].pop()]: the column
    object at that index is changed in place. *)
Definition column_append (col : Z) (x : bool) : M C4Board unit :=
  fun b =>
    match index (_board b) col with
    | Ok k => (Ok tt, set_board (alter (fun c => c ++ [x]) k (_board b)) b)
    | Raise e => (Raise e, b)
    end.

Definition column_pop (col : Z) : M C4Board unit :=
  fun b =>
    match index (_board b) col, getitem (_board b) col with
    | Ok k, Ok (_ :: _) => (Ok tt, set_board (alter (fun c => removelast c) k (_board b)) b)
    | Ok _, Ok [] => (Raise IndexError, b)
    | Raise e, _ | _, Raise e => (Raise e, b)
    end.

Definition make_move_at_column (col : Z) : M C4Board bool :=
  b <- get ;;
  if (col <? 0) || (fst (size b) <=? col) then ret false else
  c <- eval (fun b => getitem (_board b) col) ;;
  if len c =? snd (size b) then ret false else
  column_append col (_turn b) ;;;
  modify (fun b => set_turn_flag (negb (_turn b)) b) ;;;
  check_result ;;;
  ret true.

Definition delete_move_at_column (col : Z) : M C4Board bool :=
  c <- eval (fun b => getitem (_board b) col) ;;
  if len c =? 0 then ret false else
  column_pop col ;;;
  modify (fun b => set_turn_flag (negb (_turn b)) b) ;;;
  modify (set_result 0) ;;;
  modify (set_win_reason 0) ;;;
  modify (set_win_locs []) ;;;
  ret true.

Definition get_result (b : C4Board) : Z := _result b.

(** The pieces a chunk of the string stands for: every ['1'] and ['2'],
    any other character being passed over. *)
Fixpoint chunk_pieces (chunk : str) : list bool :=
  match chunk with
  | [] => []
  | ch :: rest =>
      if Ascii.eqb ch "1" then false :: chunk_pieces rest
      else if Ascii.eqb ch "2" then true :: chunk_pieces rest
      else chunk_pieces rest
  end.

Definition set_position (fen : str) : M C4Board unit :=
  modify (set_board []) ;;;
  last <- eval (fun _ => getitem fen (-1)) ;;
  n <- eval (fun _ => int_of_char last) ;;
  modify (set_turn_flag (n =? 2)) ;;;
  let fen := slice_to fen (-2) in
  let chunks := split " " fen in
  modify (fun b =>
    set_board
      (fold_left (fun acc chunk =>
                    if decide (chunk = []) then acc ++ [[]]
                    else acc ++ [chunk_pieces chunk])
                 chunks (_board b)) b) ;;;
  modify (fun b => set_board (rev (_board b)) b).

Definition piece_char (item : bool) : str := if item then s!"2" else s!"1".

Definition get_fen (b : C4Board) : str :=
  let chunks := map (fun _list => join [] (map piece_char _list)) (_board b) in
  let chunks := rev chunks in
  join s!" " chunks ++ s!" " ++ (if _turn b then s!"2" else s!"1").

Definition all_available_moves (b : C4Board) : outcome (list Z) :=
  fold_right (fun i acc =>
                let! c := getitem (_board b) i in
                let! rest := acc in
                Ok (if len c <? snd (size b) then i :: rest else rest))
             (Ok []) (range 0 (fst (size b))).

Definition p1_won (b : C4Board) : bool := _result b =? 2.

Definition p2_won (b : C4Board) : bool := _result b =? 3.

Definition is_draw (b : C4Board) : bool := _result b =? 1.

Definition set_turn (player_num : Z) : M C4Board unit :=
  modify (set_turn_flag (player_num =? 2)).

Definition get_turn (b : C4Board) : Z := if _turn b then 2 else 1.

(** One cell of the picture, appended to [string]. *)
Definition to_string_cell (b : C4Board) (row col : Z) (string : str)
  : outcome str :=
  let! c := getitem (_board b) col in
  if len c <=? row then Ok (string ++ s!"| ") else
  let! p := cell b col row in
  if Bool.eqb p false
  then Ok (string ++ s!"|" ++ [ESC] ++ s!"[33m1" ++ [ESC] ++ s!"[0m")
  else Ok (string ++ s!"|" ++ [ESC] ++ s!"[31m2" ++ [ESC] ++ s!"[0m").

(** One row of the picture. *)
Definition to_string_row (b : C4Board) (row : Z) (string : str)
  : outcome str :=
  let! string := for_acc (range 0 (fst (size b))) (to_string_cell b row)
                         string in
  Ok (string ++ s!"|" ++ [NL]).

(** [to_string], which [__str__] returns: the player to move, the rows from
    the top one down, and the numbers of the columns. *)
Definition to_string (b : C4Board) : outcome str :=
  let string := [] in
  let string :=
    if Bool.eqb (_turn b) false
    then string ++ [ESC] ++ s!"[33mPlayer 1's" ++ [ESC] ++ s!"[0m Turn" ++ [NL]
    else string ++ [ESC] ++ s!"[31mPlayer 2's" ++ [ESC] ++ s!"[0m Turn" ++ [NL]
  in
  let! string := for_acc (range_desc (snd (size b) - 1) (-1))
                         (to_string_row b) string in
  Ok (string
      ++ join [] (map (fun i => s!"=" ++ list_ascii_of_string (pretty i))
                      (range 0 (fst (size b))))
      ++ s!"=").

Definition __str__ (b : C4Board) : outcome str := to_string b.

End Game.

(** ** [engine.py]: the search *)

Module Engine.

Import Game.

(** The attributes of a [C4Engine].  [bestmoves] assigns [self.lookups], an
    attribute that [__init__] does not create: [None] stands for its
    absence. *)
Record C4Engine : Type := mkEngine {
  ttable : gmap str Z;
  _lookups : Z;
  lookups : option Z;
  PLY_LIMIT : Z
}.

Definition set_ttable (v : gmap str Z) (e : C4Engine) : C4Engine :=
  mkEngine v (_lookups e) (lookups e) (PLY_LIMIT e).

Definition set__lookups (v : Z) (e : C4Engine) : C4Engine :=
  mkEngine (ttable e) v (lookups e) (PLY_LIMIT e).

Definition set_lookups (v : option Z) (e : C4Engine) : C4Engine :=
  mkEngine (ttable e) (_lookups e) v (PLY_LIMIT e).

(** [C4Engine()] *)
Definition init : C4Engine :=
  {| ttable := ∅; _lookups := 0; lookups := None; PLY_LIMIT := 10 |}.

(** A call of an engine method: the engine and the board that it was handed,
    both mutable. *)
Abbreviation world := (C4Engine * C4Board)%type.

Definition on_board {A} (m : M C4Board A) : M world A :=
  fun w => let (r, b') := m (snd w) in (r, (fst w, b')).

Definition on_engine (f : C4Engine -> C4Engine) : M world unit :=
  modify (fun w => (f (fst w), snd w)).

Definition evaluate_position (b : C4Board) : Z :=
  match get_result b with
  | 0 => 0
  | 1 => 0
  | 2 => 100
  | 3 => -100
  | _ => 0
  end.

Section Search.

(** [self.negamax(board, a, b, ply + 1)], the recursive call. *)
Variable deeper : Z -> Z -> M world Z.

(** The [for move in board.all_available_moves()] loop of [negamax], with
    its [break]. *)
Fixpoint negamax_loop (moves : list Z) (alpha beta best_value : Z)
  : M world Z :=
  match moves with
  | [] => ret best_value
  | move :: rest =>
      currfen <- eval (fun w => Ok (get_fen (snd w))) ;;
      on_board (make_move_at_column move) ;;;
      v <- deeper (- beta) (- alpha) ;;
      let value := - v in
      on_board (set_position currfen) ;;;
      let best_value := Z.max best_value value in
      let alpha := Z.max alpha value in
      if alpha >=? beta then ret best_value
      else negamax_loop rest alpha beta best_value
  end.

(** [negamax] below the ply limit. *)
Definition negamax_body (alpha beta : Z) : M world Z :=
  w <- get ;;
  if get_result (snd w) >=? 2 then ret (-100) else
  if get_result (snd w) =? 1 then ret 0 else
  match ttable (fst w) !! get_fen (snd w) with
  | Some ttable_eval =>
      on_engine (fun e => set__lookups (_lookups e + 1) e) ;;;
      ret ttable_eval
  | None =>
      moves <- eval (fun w => all_available_moves (snd w)) ;;
      best_value <- negamax_loop moves alpha beta (-100) ;;
      w <- get ;;
      on_engine (fun e =>
        set_ttable (<[get_fen (snd w) := best_value]> (ttable e)) e) ;;;
      ret best_value
  end.

End Search.

(** [negamax] with [depth] plies left before [ply >= self.PLY_LIMIT].  The
    limit that the interpreter sets to the depth of recursion is not part
    of this model, which never raises [RecursionError]: what is proved
    below of a call whether it returns or raises holds at any depth, and
    that a search returns is stated for searches of ten plies at most, the
    depth of a new engine. *)
Fixpoint negamax_at (depth : nat) (alpha beta : Z) : M world Z :=
  match depth with
  | O => w <- get ;; ret (evaluate_position (snd w))
  | S d => negamax_body (negamax_at d) alpha beta
  end.

(** [self.negamax(board, alpha, beta, ply)]: the recursion raises [ply] by
    one at each call and stops at [self.PLY_LIMIT], which no method
    assigns, so that [PLY_LIMIT - ply] calls are left. *)
Definition negamax (alpha beta ply : Z) : M world Z :=
  fun w => negamax_at (Z.to_nat (PLY_LIMIT (fst w) - ply)) alpha beta w.

(** The local [evals], a [dict] from column to value, in insertion order. *)
Fixpoint dict_set (k v : Z) (d : list (Z * Z)) : list (Z * Z) :=
  match d with
  | [] => [(k, v)]
  | (k', v') :: d' =>
      if k' =? k then (k', v) :: d' else (k', v') :: dict_set k v d'
  end.

Fixpoint dict_get (k : Z) (d : list (Z * Z)) : option Z :=
  match d with
  | [] => None
  | (k', v') :: d' => if k' =? k then Some v' else dict_get k d'
  end.

(** The [for col in board.all_available_moves()] loop of [bestmoves]. *)
Fixpoint bestmoves_loop (currfen : str) (moves : list Z)
  (evals : list (Z * Z)) : M world (list (Z * Z)) :=
  match moves with
  | [] => ret evals
  | col :: rest =>
      on_board (make_move_at_column col) ;;;
      v <- negamax (-100) 100 0 ;;
      let eval := - v in
      on_board (set_position currfen) ;;;
      bestmoves_loop currfen rest (dict_set col eval evals)
  end.

Definition bestmoves : M world (list Z) :=
  currfen <- eval (fun w => Ok (get_fen (snd w))) ;;
  on_engine (set_lookups (Some 0)) ;;;
  moves <- eval (fun w => all_available_moves (snd w)) ;;
  evals <- bestmoves_loop currfen moves [] ;;
  max_eval <- eval (fun _ => max_of (map snd evals)) ;;
  let indicies :=
    List.filter (fun i => match dict_get i evals with
                          | Some v => v =? max_eval
                          | None => false
                          end) (map fst evals) in
  on_engine (set__lookups 0) ;;;
  ret indicies.

End Engine.

Import Game Engine.

(** ** Vocabulary of the statements *)

(** A game driven as [play.py] drives it: the columns are played in turn,
    and the game stops at the first refused move. *)
Fixpoint play (cols : list Z) : M C4Board bool :=
  match cols with
  | [] => ret true
  | col :: rest =>
      ok <- make_move_at_column col ;;
      if ok then play rest else ret false
  end.

(** The boards that moves and undos produce from a fresh board, whatever
    these calls return or raise. *)
Inductive reachable (cols rows connect : Z) : C4Board -> Prop :=
| reach_init : reachable cols rows connect (Game.init cols rows connect)
| reach_move b col :
    reachable cols rows connect b ->
    reachable cols rows connect (snd (make_move_at_column col b))
| reach_undo b col :
    reachable cols rows connect b ->
    reachable cols rows connect (snd (delete_move_at_column col b)).

(** The board once a piece of the player to move lies on top of the column
    at position [k] and the turn has passed, and the board once the top
    piece of that column is taken back. *)
Definition dropped (k : nat) (b : C4Board) : C4Board :=
  set_turn_flag (negb (_turn b))
    (set_board (alter (fun c => c ++ [_turn b]) k (_board b)) b).

Definition lifted (k : nat) (b : C4Board) : C4Board :=
  set_win_locs [] (set_win_reason 0 (set_result 0
    (set_turn_flag (negb (_turn b))
       (set_board (alter (fun c => removelast c) k (_board b)) b)))).

(** The board holds as many columns as its [size] announces. *)
Definition columns_match (b : C4Board) : Prop :=
  len (_board b) = fst (size b).

(** A board on which [check_result] is at home: all its columns are there
    and a run has four pieces or more. *)
Definition sound (b : C4Board) : Prop :=
  columns_match b /\ 4 <= connect_num b.

(** Two boards show the same position: columns, turn and configuration. *)
Definition same_position (b b' : C4Board) : Prop :=
  _board b' = _board b /\ _turn b' = _turn b
  /\ size b' = size b /\ connect_num b' = connect_num b.

(** Every value stored in the transposition table is a legal score. *)
Definition ttable_bounded (e : C4Engine) : Prop :=
  map_Forall (fun _ v => -100 <= v <= 100) (ttable e).

(** A statement keeps the invariant [I] of its object, whether it returns
    or raises, and what it returns satisfies [Q]. *)
Definition keeps {S A} (I : S -> Prop) (Q : A -> Prop) (m : M S A) : Prop :=
  forall s, I s -> I (snd (m s)) /\ forall a, fst (m s) = Ok a -> Q a.

(** The invariant of a call of the engine: the table holds scores only. *)
Abbreviation table_ok := (fun w : world => ttable_bounded (fst w)).

(** A statement returns normally from every state that satisfies [P], with
    a value and in a state that satisfy [Q]. *)
Definition returns {S A} (P : S -> Prop) (m : M S A) (Q : A -> S -> Prop)
  : Prop :=
  forall s, P s -> exists a s', m s = (Ok a, s') /\ Q a s'.

(** The board of a call shows the position of [b0], and the table of the
    engine holds scores only. *)
Definition at_position (b0 : C4Board) (w : world) : Prop :=
  same_position b0 (snd w) /\ ttable_bounded (fst w).

(** A score between a sure loss and a sure win. *)
Definition score (v : Z) : Prop := -100 <= v <= 100.

(** The search below one node: it returns a score and restores the
    position. *)
Definition restoring (deeper : Z -> Z -> M world Z) : Prop :=
  forall alpha beta b1,
    sound b1 ->
    returns (at_position b1) (deeper alpha beta)
            (fun v w => score v /\ at_position b1 w).

(** The table of the engine of a call has the property [P]. *)
Definition table_has (P : gmap str Z -> Prop) (w : world) : Prop :=
  P (ttable (fst w)).

(** The number of pieces on the board. *)
Definition pieces (b : C4Board) : nat := length (concat (_board b)).

(** No column is higher than the board. *)
Definition within_rows (b : C4Board) : Prop :=
  Forall (fun c => len c <= snd (size b)) (_board b).

(** Four cells in a line from [(i, j)] in direction [(di, dj)], all on the
    board, hold the piece [p]. *)
Definition run4 (b : C4Board) (p : bool) (i j di dj : Z) : Prop :=
  0 <= i /\ 0 <= j /\ 0 <= j + 3 * dj
  /\ forall k, 0 <= k <= 3 -> cell b (i + k * di) (j + k * dj) = Ok p.

(** The result that stands for a win of the owner of the piece [p]. *)
Definition win_of (p : bool) : Z := if p then 3 else 2.

(** A well-formed token of the encoding: ['1'] and ['2'] only. *)
Definition token (w : str) : Prop :=
  Forall (fun ch => ch = "1"%char \/ ch = "2"%char) w.

(** The columns that [all_available_moves] looks for: those that exist and
    are lower than the board. *)
Definition open_column (b : C4Board) (i : Z) : bool :=
  match getitem (_board b) i with
  | Ok c => len c <? snd (size b)
  | Raise _ => false
  end.

(** ** The Python fragment *)

(** Split on the integer comparisons of the goal. *)
Ltac zcases :=
  cbv zeta;
  repeat match goal with
    | |- context [?a >=? ?b] => rewrite (Z.geb_leb a b)
    | |- context [?a <? ?b] => destruct (Z.ltb_spec a b)
    | |- context [?a <=? ?b] => destruct (Z.leb_spec a b)
    | |- context [?a =? ?b] => destruct (Z.eqb_spec a b)
    end;
  simpl; try lia; try reflexivity.

Section PyFacts.

Context {A : Type}.
Implicit Types (l : list A) (x : A).

Lemma len_nonneg l : 0 <= len l.
Proof. unfold len. lia. Qed.

Lemma len_app l1 l2 : len (l1 ++ l2) = len l1 + len l2.
Proof. unfold len. rewrite length_app. lia. Qed.

Lemma index_inside l (i : Z) :
  0 <= i < len l -> index l i = Ok (Z.to_nat i).
Proof.
  intros Hi. unfold index. zcases.
Qed.

Lemma index_negative l (i : Z) :
  - len l <= i < 0 -> index l i = Ok (Z.to_nat (i + len l)).
Proof.
  intros Hi. unfold index. zcases.
Qed.

Lemma index_beyond l (i : Z) : len l <= i -> index l i = Raise IndexError.
Proof.
  intros Hi. unfold index. pose proof (len_nonneg l). zcases.
Qed.

Lemma index_Ok l (i : Z) k :
  index l i = Ok k ->
  (k < length l)%nat /\
  (0 <= i /\ k = Z.to_nat i \/ i < 0 /\ k = Z.to_nat (i + len l)).
Proof.
  unfold index, len. revert k. zcases; intros k [= <-]; lia.
Qed.

Lemma getitem_inside l (i : Z) x :
  0 <= i -> l !! Z.to_nat i = Some x -> getitem l i = Ok x.
Proof.
  intros Hi Hx. unfold getitem.
  rewrite index_inside; [simpl; now rewrite Hx|].
  apply lookup_lt_Some in Hx. unfold len. lia.
Qed.

Lemma getitem_beyond l (i : Z) : len l <= i -> getitem l i = Raise IndexError.
Proof. intros Hi. unfold getitem. now rewrite index_beyond. Qed.

Lemma getitem_Ok l (i : Z) x :
  getitem l i = Ok x ->
  exists k, index l i = Ok k /\ l !! k = Some x.
Proof.
  unfold getitem. destruct (index l i) as [k|] eqn:Hk; simpl; [|discriminate].
  destruct (l !! k) eqn:Hl; [|discriminate].
  intros [= ->]. eauto.
Qed.

Lemma getitem_last l x : getitem (l ++ [x]) (-1) = Ok x.
Proof.
  unfold getitem. rewrite index_negative.
  - rewrite len_app. unfold len. simpl.
    replace (Z.to_nat _) with (length l) by lia.
    now rewrite list_lookup_middle.
  - rewrite len_app. pose proof (len_nonneg l). unfold len in *. simpl. lia.
Qed.

Lemma slice_to_drop2 l x y : slice_to (l ++ [x; y]) (-2) = l.
Proof.
  unfold slice_to. simpl. rewrite len_app. unfold len. simpl.
  replace (Z.to_nat _) with (length l) by lia.
  apply take_app_length.
Qed.

End PyFacts.

Lemma elem_of_range (a b x : Z) : x ∈ range a b <-> a <= x < b.
Proof. unfold range. rewrite elem_of_seqZ. lia. Qed.

(** *** Splitting and joining *)

Lemma split_nonempty sep s : split sep s <> [].
Proof.
  destruct s as [|c s]; simpl; [discriminate|].
  destruct (Ascii.eqb c sep); [discriminate|].
  destruct (split sep s); discriminate.
Qed.

Lemma split_word sep w : sep ∉ w -> split sep w = [w].
Proof.
  induction w as [|c w IH]; intros Hw; [reflexivity|].
  apply not_elem_of_cons in Hw as [Hc Hw]. simpl.
  destruct (Ascii.eqb_spec c sep) as [->|_]; [congruence|].
  now rewrite IH.
Qed.

Lemma split_app sep w s :
  sep ∉ w -> split sep (w ++ sep :: s) = w :: split sep s.
Proof.
  induction w as [|c w IH]; intros Hw; simpl.
  - now rewrite Ascii.eqb_refl.
  - apply not_elem_of_cons in Hw as [Hc Hw].
    destruct (Ascii.eqb_spec c sep) as [->|_]; [congruence|].
    now rewrite IH.
Qed.

Lemma join_cons sep w w' ws :
  join sep (w :: w' :: ws) = w ++ sep ++ join sep (w' :: ws).
Proof. reflexivity. Qed.

Lemma split_join sep ws :
  ws <> [] -> Forall (fun w => sep ∉ w) ws -> split sep (join [sep] ws) = ws.
Proof.
  induction ws as [|w ws IH]; intros Hne Hall; [congruence|].
  apply Forall_cons in Hall as [Hw Hall].
  destruct ws as [|w' ws].
  - simpl. now apply split_word.
  - rewrite join_cons.
    change ([sep] ++ join [sep] (w' :: ws)) with (sep :: join [sep] (w' :: ws)).
    rewrite split_app by assumption. now rewrite IH.
Qed.

(** *** The encoding of one column *)

Lemma join_pieces (c : list bool) :
  join [] (map piece_char c)
  = map (fun p : bool => if p then "2"%char else "1"%char) c.
Proof.
  induction c as [|p c IH]; [reflexivity|].
  destruct c as [|q c]; [now destruct p|].
  cbn [map] in *. rewrite join_cons, IH. now destruct p.
Qed.

Lemma chunk_pieces_encode (c : list bool) :
  chunk_pieces (join [] (map piece_char c)) = c.
Proof.
  rewrite join_pieces.
  induction c as [|p c IH]; [reflexivity|].
  destruct p; simpl; now rewrite IH.
Qed.

Lemma encode_no_space (c : list bool) :
  " "%char ∉ join [] (map piece_char c).
Proof.
  rewrite join_pieces. intros H. apply list_elem_of_fmap in H as (p & Hp & _).
  now destruct p.
Qed.

(** The loop of [set_position] over the chunks. *)
Lemma decode_chunks chunks acc :
  fold_left (fun acc chunk =>
               if decide (chunk = []) then acc ++ [[]]
               else acc ++ [chunk_pieces chunk]) chunks acc
  = acc ++ map chunk_pieces chunks.
Proof.
  revert acc. induction chunks as [|c cs IH]; intros acc; simpl.
  - now rewrite app_nil_r.
  - rewrite IH. destruct (decide (c = [])) as [->|_];
      now rewrite <- app_assoc.
Qed.

(** What [set_position] does on a string that ends in a digit. *)
Lemma set_position_digit fen last n b :
  getitem fen (-1) = Ok last -> int_of_char last = Ok n ->
  set_position fen b =
  (Ok tt,
   set_board (rev (map chunk_pieces (split " " (slice_to fen (-2)))))
             (set_turn_flag (n =? 2) b)).
Proof.
  intros Hl Hn. unfold set_position, bind, modify, eval.
  rewrite Hl, Hn. simpl. now rewrite decode_chunks.
Qed.

Lemma set_position_get_fen b b0 :
  _board b <> [] ->
  set_position (get_fen b) b0 =
  (Ok tt, set_board (_board b) (set_turn_flag (_turn b) b0)).
Proof.
  intros Hne. unfold get_fen.
  set (chunks := rev (map _ (_board b))).
  set (d := if _turn b then "2"%char else "1"%char).
  assert (Hfen : join s!" " chunks ++ s!" " ++ (if _turn b then s!"2" else s!"1")
                 = (join s!" " chunks ++ [" "%char]) ++ [d]).
  { rewrite <- app_assoc. subst d. now destruct (_turn b). }
  rewrite Hfen.
  rewrite (set_position_digit _ d (if _turn b then 2 else 1)).
  - rewrite <- app_assoc. simpl app. rewrite slice_to_drop2.
    change s!" " with [" "%char]. rewrite split_join.
    + subst chunks. rewrite map_rev, rev_involutive, map_map.
      rewrite (map_ext _ id) by apply chunk_pieces_encode.
      rewrite map_id. now destruct (_turn b).
    + subst chunks. intros H. apply (f_equal (@length _)) in H.
      rewrite length_rev, length_map in H. destruct (_board b); [congruence|discriminate].
    + subst chunks. apply Forall_rev, Forall_map, Forall_forall.
      intros c _. apply encode_no_space.
  - apply getitem_last.
  - subst d. now destruct (_turn b).
Qed.

(** ** The board *)

Lemma set_result_same b : set_result (_result b) b = b.
Proof. now destruct b. Qed.

(** [check_result] writes [_result] and nothing else. *)
Lemma check_result_frame b : exists r, snd (check_result b) = set_result r b.
Proof.
  unfold check_result. destruct (all_full b); [now exists 1|].
  destruct (first_found _ b) as [[r|]|e]; simpl; eauto.
  exists (_result b). now rewrite set_result_same.
Qed.

(** [make_move_at_column], statement by statement. *)
Lemma make_move_unfold col b :
  make_move_at_column col b =
  if (col <? 0) || (fst (size b) <=? col) then (Ok false, b) else
  match getitem (_board b) col with
  | Raise e => (Raise e, b)
  | Ok c =>
      if len c =? snd (size b) then (Ok false, b) else
      match index (_board b) col with
      | Raise e => (Raise e, b)
      | Ok k =>
          match check_result (dropped k b) with
          | (Ok _, b') => (Ok true, b')
          | (Raise e, b') => (Raise e, b')
          end
      end
  end.
Proof.
  unfold make_move_at_column, bind, get, eval, ret, modify, column_append.
  destruct ((col <? 0) || (fst (size b) <=? col)); [reflexivity|].
  destruct (getitem (_board b) col) as [c|e]; [|reflexivity].
  destruct (len c =? snd (size b)); [reflexivity|].
  destruct (index (_board b) col) as [k|e]; [|reflexivity].
  unfold dropped. simpl.
  destruct (check_result _) as [[[]|e] b']; reflexivity.
Qed.

(** [delete_move_at_column], statement by statement. *)
Lemma delete_move_unfold col b :
  delete_move_at_column col b =
  match getitem (_board b) col with
  | Raise e => (Raise e, b)
  | Ok c =>
      if len c =? 0 then (Ok false, b) else
      match index (_board b) col with
      | Raise e => (Raise e, b)
      | Ok k => (Ok true, lifted k b)
      end
  end.
Proof.
  unfold delete_move_at_column, bind, eval, ret, modify, column_pop.
  destruct (getitem (_board b) col) as [c|e] eqn:Hc; [|reflexivity].
  destruct c as [|p c]; [reflexivity|].
  change (len (p :: c) =? 0) with false. cbv beta iota.
  rewrite Hc.
  destruct (index (_board b) col) as [k|e]; reflexivity.
Qed.

Lemma make_move_columns col b :
  length (_board (snd (make_move_at_column col b))) = length (_board b)
  /\ size (snd (make_move_at_column col b)) = size b
  /\ connect_num (snd (make_move_at_column col b)) = connect_num b.
Proof.
  rewrite make_move_unfold.
  destruct ((col <? 0) || _); [done|].
  destruct (getitem _ col); [|done].
  destruct (len _ =? _); [done|].
  destruct (index _ col) as [k|]; [|done].
  destruct (check_result_frame (dropped k b)) as [r Hr].
  destruct (check_result (dropped k b)) as [[[]|e] b']; simpl in *; subst b';
    simpl; now rewrite length_alter.
Qed.

Lemma delete_move_columns col b :
  length (_board (snd (delete_move_at_column col b))) = length (_board b)
  /\ size (snd (delete_move_at_column col b)) = size b
  /\ connect_num (snd (delete_move_at_column col b)) = connect_num b.
Proof.
  rewrite delete_move_unfold.
  destruct (getitem _ col); [|done].
  destruct (len _ =? _); [done|].
  destruct (index _ col) as [k|]; [|done].
  simpl. now rewrite length_alter.
Qed.

Lemma len_range (n : Z) : length (range 0 n) = Z.to_nat n.
Proof. unfold range. rewrite length_seqZ. f_equal. lia. Qed.

Lemma reachable_columns cols rows connect b :
  reachable cols rows connect b ->
  length (_board b) = Z.to_nat cols /\ size b = (cols, rows)
  /\ connect_num b = connect.
Proof.
  induction 1 as [|b col _ (IH1 & IH2 & IH3)|b col _ (IH1 & IH2 & IH3)].
  - simpl. now rewrite length_map, len_range.
  - destruct (make_move_columns col b) as (-> & -> & ->). done.
  - destruct (delete_move_columns col b) as (-> & -> & ->). done.
Qed.

(** ** C1: the round trip through the encoding *)

(** C1.  On a board of at least one column, every position that moves and
    undos reach is restored by decoding its own encoding: [set_position]
    applied to [get_fen b] returns normally and installs the columns and the
    turn of [b] in whatever board it is called on, so that called on [b]
    itself it leaves [b] as it was. *)
Theorem fen_round_trip cols rows connect b :
  1 <= cols ->
  reachable cols rows connect b ->
  (forall b0,
      set_position (get_fen b) b0 =
      (Ok tt, set_board (_board b) (set_turn_flag (_turn b) b0)))
  /\ set_position (get_fen b) b = (Ok tt, b).
Proof.
  intros Hcols Hb.
  assert (Hne : _board b <> []).
  { apply reachable_columns in Hb as (Hlen & _).
    intros E. rewrite E in Hlen. simpl in Hlen. lia. }
  split.
  - intros b0. now apply set_position_get_fen.
  - rewrite set_position_get_fen by assumption. now destruct b.
Qed.

Lemma fen_round_trip_witness :
  1 <= 7 /\
  set_position (get_fen (snd (play [3; 3; 4] (Game.init 7 6 4))))
               (snd (play [3; 3; 4] (Game.init 7 6 4)))
  = (Ok tt, snd (play [3; 3; 4] (Game.init 7 6 4))).
Proof.
  split; [lia|].
  apply (fen_round_trip 7 6 4); [lia|].
  change (snd (play [3; 3; 4] (Game.init 7 6 4)))
    with (snd (make_move_at_column 4
           (snd (make_move_at_column 3
             (snd (make_move_at_column 3 (Game.init 7 6 4))))))).
  repeat apply reach_move. apply reach_init.
Defined.

(** On a board without columns the encoding does not come back: decoded,
    the string of no column gives one empty column. *)
Lemma fen_round_trip_needs_a_column :
  set_position (get_fen (Game.init 0 6 4)) (Game.init 0 6 4)
  = (Ok tt, set_board [[]] (Game.init 0 6 4)).
Proof. reflexivity. Qed.

(** ** C8 and C10: taking a move back *)

Lemma index_same_length {A B} (l : list A) (l' : list B) i :
  length l = length l' -> index l i = index l' i.
Proof. intros H. unfold index, len. now rewrite H. Qed.

Lemma getitem_alter {A} (f : A -> A) (l : list A) i k c :
  index l i = Ok k -> getitem l i = Ok c ->
  getitem (alter f k l) i = Ok (f c).
Proof.
  intros Hk Hc. apply getitem_Ok in Hc as (k' & Hk' & Hl).
  assert (k' = k) as -> by congruence.
  unfold getitem.
  rewrite (index_same_length _ l) by apply length_alter.
  rewrite Hk. simpl. now rewrite list_lookup_alter_eq, Hl.
Qed.

Lemma alter_pop_push (t : bool) k (l : list (list bool)) :
  alter (fun c => removelast c) k (alter (fun c => c ++ [t]) k l) = l.
Proof.
  rewrite list_alter_alter_eq. apply list_alter_id.
  intros c. simpl. apply removelast_last.
Qed.

Lemma get_fen_pieces b b' :
  _board b' = _board b -> _turn b' = _turn b -> get_fen b' = get_fen b.
Proof. intros H1 H2. unfold get_fen. now rewrite H1, H2. Qed.

(** What a successful move has done. *)
Lemma make_move_true col b b' :
  make_move_at_column col b = (Ok true, b') ->
  exists c k r,
    0 <= col < fst (size b) /\ getitem (_board b) col = Ok c
    /\ len c <> snd (size b) /\ index (_board b) col = Ok k
    /\ check_result (dropped k b) = (Ok tt, b')
    /\ b' = set_result r (dropped k b).
Proof.
  rewrite make_move_unfold.
  destruct (Z.ltb_spec col 0); [discriminate|].
  destruct (Z.leb_spec (fst (size b)) col); [discriminate|]. simpl.
  destruct (getitem _ col) as [c|]; [|discriminate].
  destruct (Z.eqb_spec (len c) (snd (size b))); [discriminate|].
  destruct (index _ col) as [k|]; [|discriminate].
  destruct (check_result_frame (dropped k b)) as [r Hr].
  destruct (check_result (dropped k b)) as [[[]|e] b''] eqn:Hcr;
    [|discriminate].
  intros [= <-]. exists c, k, r. simpl in Hr. repeat split; auto; lia.
Qed.

(** C8.  Whenever [make_move_at_column c] succeeds on a board [b], the call
    [delete_move_at_column c] that follows succeeds too and leaves a board
    with the columns and the turn of [b], hence with the encoding of [b]. *)
Theorem move_undo_restores_fen col b b' :
  make_move_at_column col b = (Ok true, b') ->
  exists b'',
    delete_move_at_column col b' = (Ok true, b'')
    /\ _board b'' = _board b /\ _turn b'' = _turn b
    /\ get_fen b'' = get_fen b.
Proof.
  intros Hmove.
  apply make_move_true in Hmove as (c & k & r & Hcol & Hc & Hfull & Hk & _ & ->).
  rewrite delete_move_unfold. simpl.
  rewrite (getitem_alter _ _ _ k c) by assumption.
  rewrite (index_same_length _ (_board b)) by apply length_alter.
  rewrite Hk.
  assert ((len (c ++ [_turn b]) =? 0) = false) as ->.
  { apply Z.eqb_neq. rewrite len_app. pose proof (len_nonneg c).
    unfold len at 2. simpl. lia. }
  eexists. split; [reflexivity|].
  assert (H1 : _board (lifted k (set_result r (dropped k b))) = _board b)
    by apply alter_pop_push.
  assert (H2 : _turn (lifted k (set_result r (dropped k b))) = _turn b)
    by apply negb_involutive.
  auto using get_fen_pieces.
Qed.

Lemma move_undo_restores_fen_witness :
  exists b'',
    delete_move_at_column 3 (snd (make_move_at_column 3 (Game.init 7 6 4)))
    = (Ok true, b'')
    /\ _board b'' = _board (Game.init 7 6 4)
    /\ _turn b'' = _turn (Game.init 7 6 4)
    /\ get_fen b'' = get_fen (Game.init 7 6 4).
Proof.
  apply (move_undo_restores_fen 3 (Game.init 7 6 4)). reflexivity.
Defined.

(** C10.  [delete_move_at_column] checks nothing about its argument.  On a
    board whose columns are as many as its size says, an index at or beyond
    the column count raises [IndexError] and leaves the board alone; a
    negative index down to minus the column count acts exactly as the index
    counted from the right-hand end does, so that a piece standing in that
    column is taken off and [True] returned. *)
Theorem undo_does_not_validate b col :
  columns_match b ->
  (fst (size b) <= col ->
   delete_move_at_column col b = (Raise IndexError, b))
  /\ (- fst (size b) <= col <= -1 ->
      delete_move_at_column col b
      = delete_move_at_column (col + fst (size b)) b
      /\ forall c, _board b !! Z.to_nat (col + fst (size b)) = Some c ->
                   c <> [] ->
                   delete_move_at_column col b
                   = (Ok true, lifted (Z.to_nat (col + fst (size b))) b)).
Proof.
  unfold columns_match. intros Hm. split.
  - intros Hcol. rewrite delete_move_unfold.
    now rewrite getitem_beyond by lia.
  - intros Hcol.
    assert (Hi : index (_board b) col = Ok (Z.to_nat (col + fst (size b)))).
    { rewrite <- Hm. apply index_negative. lia. }
    assert (Hi' : index (_board b) (col + fst (size b))
                  = Ok (Z.to_nat (col + fst (size b)))).
    { apply index_inside. lia. }
    split.
    + rewrite !delete_move_unfold. unfold getitem. now rewrite Hi, Hi'.
    + intros c Hc Hne. rewrite delete_move_unfold. unfold getitem.
      rewrite Hi. simpl. rewrite Hc.
      destruct c as [|p c]; [congruence|]. reflexivity.
Qed.

Lemma undo_does_not_validate_witness :
  delete_move_at_column 7 (snd (play [6] (Game.init 7 6 4)))
  = (Raise IndexError, snd (play [6] (Game.init 7 6 4)))
  /\ delete_move_at_column (-1) (snd (play [6] (Game.init 7 6 4)))
     = (Ok true, lifted 6 (snd (play [6] (Game.init 7 6 4)))).
Proof.
  pose proof (undo_does_not_validate (snd (play [6] (Game.init 7 6 4)))) as H.
  split.
  - destruct (H 7 eq_refl) as [H1 _]. apply H1. change (7 <= 7). lia.
  - destruct (H (-1) eq_refl) as [_ H2].
    destruct H2 as [_ H2]; [change (-7 <= -1 <= -1); lia|].
    apply (H2 [false]); [reflexivity|discriminate].
Defined.

(** ** [check_result] on boards with runs of four or more *)

Lemma getitem_total {A} (l : list A) (i : Z) :
  0 <= i < len l -> exists x, getitem l i = Ok x.
Proof.
  intros Hi. destruct (lookup_lt_is_Some_2 l (Z.to_nat i)) as [x Hx].
  { unfold len in Hi. lia. }
  exists x. apply getitem_inside; [lia|assumption].
Qed.

Lemma for_return_ok {X R} (l : list X) (body : X -> outcome (option R)) :
  (forall x, x ∈ l -> exists r, body x = Ok r) ->
  exists r, for_return l body = Ok r.
Proof.
  induction l as [|x l IH]; intros Hbody; simpl; [eauto|].
  destruct (Hbody x) as [r ->]; [left|]. simpl.
  destruct r; [eauto|]. apply IH. intros y Hy. apply Hbody. now right.
Qed.

Lemma chain_eq4_ok p q r s :
  exists t, chain_eq4 (Ok p) (Ok q) (Ok r) (Ok s) = Ok t.
Proof.
  unfold chain_eq4. simpl.
  destruct (negb (eqb p q)); [eauto|]. destruct (negb (eqb q r)); eauto.
Qed.

Lemma winner_at_ok b i j p :
  cell b i j = Ok p -> exists w, winner_at b i j = Ok w.
Proof.
  intros H. unfold winner_at. rewrite H. simpl.
  destruct p; simpl; eauto.
Qed.

Lemma report_ok b test i j t :
  test = Ok t -> (t = true -> exists p, cell b i j = Ok p) ->
  exists r, report b test i j = Ok r.
Proof.
  intros -> Hcell. unfold report. simpl. destruct t; [|eauto].
  destruct Hcell as [p Hp]; [reflexivity|].
  destruct (winner_at_ok _ _ _ _ Hp) as [w ->]. simpl. eauto.
Qed.

(** The guarded test of four cells in columns [i], [i+1], [i+2], [i+3]
    raises nothing when these columns exist and the rows are not negative. *)
Lemma line4_ok b i j dj :
  0 <= i -> i + 3 < len (_board b) ->
  0 <= j -> 0 <= dj j 1 -> 0 <= dj j 2 -> 0 <= dj j 3 ->
  exists t, line4 b i j Z.add dj = Ok t
            /\ (t = true -> exists p, cell b i j = Ok p).
Proof.
  intros Hi Hi3 Hj H1 H2 H3.
  destruct (getitem_total (_board b) i) as [c0 E0]; [lia|].
  destruct (getitem_total (_board b) (i + 1)) as [c1 E1]; [lia|].
  destruct (getitem_total (_board b) (i + 2)) as [c2 E2]; [lia|].
  destruct (getitem_total (_board b) (i + 3)) as [c3 E3]; [lia|].
  unfold line4, taller, cell, and_then. rewrite E0, E1, E2, E3. simpl.
  destruct (Z.ltb_spec j (len c0)); [|eexists; split; [reflexivity|done]].
  destruct (Z.ltb_spec (dj j 1) (len c1)); [|eexists; split; [reflexivity|done]].
  destruct (Z.ltb_spec (dj j 2) (len c2)); [|eexists; split; [reflexivity|done]].
  destruct (Z.ltb_spec (dj j 3) (len c3)); [|eexists; split; [reflexivity|done]].
  destruct (getitem_total c0 j) as [p0 ->]; [lia|].
  destruct (getitem_total c1 (dj j 1)) as [p1 ->]; [lia|].
  destruct (getitem_total c2 (dj j 2)) as [p2 ->]; [lia|].
  destruct (getitem_total c3 (dj j 3)) as [p3 ->]; [lia|].
  destruct (chain_eq4_ok p0 p1 p2 p3) as [t ->]. eauto.
Qed.

Section FourOrMore.

Variable b : C4Board.
Hypothesis Hcols : columns_match b.
Hypothesis Hrun : 4 <= connect_num b.

Lemma scan_line_ok (js : list bool -> list Z) dj :
  (forall c j, j ∈ js c ->
               0 <= j /\ 0 <= dj j 1 /\ 0 <= dj j 2 /\ 0 <= dj j 3) ->
  exists r,
    for_return (range 0 (fst (size b) - connect_num b + 1)) (fun i =>
      let! c := getitem (_board b) i in
      for_return (js c) (fun j => report b (line4 b i j Z.add dj) i j))
    = Ok r.
Proof.
  intros Hjs. apply for_return_ok. intros i Hi.
  apply elem_of_range in Hi. unfold columns_match in Hcols.
  destruct (getitem_total (_board b) i) as [c ->]; [lia|]. simpl.
  apply for_return_ok. intros j Hj.
  destruct (Hjs c j Hj) as (? & ? & ? & ?).
  destruct (line4_ok b i j dj) as (t & Ht & Hcell); try lia.
  eapply report_ok; eauto.
Qed.

Lemma scan_rising_ok : exists r, scan_rising b = Ok r.
Proof.
  apply (scan_line_ok (fun c => range 0 (len c - connect_num b + 1)) Z.add).
  intros c j Hj. apply elem_of_range in Hj. lia.
Qed.

Lemma scan_falling_ok : exists r, scan_falling b = Ok r.
Proof.
  apply (scan_line_ok (fun c => range (connect_num b - 1) (len c)) Z.sub).
  intros c j Hj. apply elem_of_range in Hj. lia.
Qed.

Lemma scan_row_ok : exists r, scan_row b = Ok r.
Proof.
  apply (scan_line_ok (fun c => range 0 (len c)) (fun j _ => j)).
  intros c j Hj. apply elem_of_range in Hj. lia.
Qed.

Lemma scan_column_ok : exists r, scan_column b = Ok r.
Proof.
  apply for_return_ok. intros col Hcol. apply elem_of_range in Hcol.
  destruct (getitem_total (_board b) col) as [c Hc]; [lia|].
  rewrite Hc. simpl.
  destruct (Z.ltb_spec (len c) (connect_num b)); [eauto|].
  apply for_return_ok. intros piece Hp. apply elem_of_range in Hp.
  unfold cell. rewrite Hc. simpl.
  destruct (getitem_total c piece) as [p0 E0]; [lia|].
  destruct (getitem_total c (piece + 1)) as [p1 E1]; [lia|].
  destruct (getitem_total c (piece + 2)) as [p2 E2]; [lia|].
  destruct (getitem_total c (piece + 3)) as [p3 E3]; [lia|].
  rewrite E0, E1, E2, E3.
  destruct (chain_eq4_ok p0 p1 p2 p3) as [t Ht].
  eapply report_ok; [exact Ht|].
  intros _. exists p0. unfold cell. now rewrite Hc.
Qed.

(** With runs of four or more on a board that has all its columns,
    [check_result] raises nothing. *)
Lemma check_result_returns :
  exists r, check_result b = (Ok tt, set_result r b).
Proof.
  unfold check_result. destruct (all_full b); [eauto|].
  unfold first_found.
  destruct scan_rising_ok as [r1 ->]. simpl. destruct r1; [eauto|].
  destruct scan_falling_ok as [r2 ->]. simpl. destruct r2; [eauto|].
  destruct scan_row_ok as [r3 ->]. simpl. destruct r3; [eauto|].
  destruct scan_column_ok as [r4 ->]. simpl. destruct r4; eauto.
Qed.

End FourOrMore.

(** ** C7: what [make_move_at_column] does *)

(** C7.  With runs of 1 on the standard board, the first move of a game, in
    column 0, is legal and raises [IndexError]: the piece is placed and the
    turn passed, then [check_result] reads a cell of the empty column 1.
    With runs of 3, the move that puts a third piece of Player 1 on top of
    column 0 raises [IndexError] as well. *)
Theorem make_move_raises_with_short_runs :
  make_move_at_column 0 (Game.init 7 6 1)
  = (Raise IndexError, dropped 0 (Game.init 7 6 1))
  /\ fst (play [0; 1; 0; 1] (Game.init 7 6 3)) = Ok true
  /\ make_move_at_column 0 (snd (play [0; 1; 0; 1] (Game.init 7 6 3)))
     = (Raise IndexError,
        dropped 0 (snd (play [0; 1; 0; 1] (Game.init 7 6 3)))).
Proof. vm_compute. repeat split. Qed.

(** X21.  With runs of four or more, on a board that has all its columns,
    [make_move_at_column] is as its documentation has it: a column out of
    range or full is refused with [False] and the board is left alone; any
    other column gets the piece of the player to move on top, the turn
    passes, [check_result] sets the result, and the answer is [True]. *)
Lemma make_move_with_long_runs b col :
  sound b ->
  (col < 0 \/ fst (size b) <= col ->
   make_move_at_column col b = (Ok false, b))
  /\ (forall c,
        0 <= col < fst (size b) ->
        _board b !! Z.to_nat col = Some c ->
        (len c = snd (size b) -> make_move_at_column col b = (Ok false, b))
        /\ (len c <> snd (size b) ->
            exists r,
              check_result (dropped (Z.to_nat col) b)
              = (Ok tt, set_result r (dropped (Z.to_nat col) b))
              /\ make_move_at_column col b
                 = (Ok true, set_result r (dropped (Z.to_nat col) b)))).
Proof.
  intros [Hc Hr]. split.
  - intros Hcol. rewrite make_move_unfold.
    destruct (Z.ltb_spec col 0); [reflexivity|].
    destruct (Z.leb_spec (fst (size b)) col); [reflexivity|lia].
  - intros c Hcol Hlook. rewrite make_move_unfold.
    destruct (Z.ltb_spec col 0); [lia|].
    destruct (Z.leb_spec (fst (size b)) col); [lia|]. simpl.
    rewrite (getitem_inside _ _ c) by (lia || assumption).
    split; intros Hlen.
    + now rewrite (proj2 (Z.eqb_eq _ _) Hlen).
    + rewrite (proj2 (Z.eqb_neq _ _) Hlen).
      unfold columns_match in Hc. rewrite index_inside by lia.
      destruct (check_result_returns (dropped (Z.to_nat col) b)) as [r Hres];
        [|assumption|].
      { unfold columns_match, len. simpl. now rewrite length_alter. }
      exists r. split; [assumption|]. now rewrite Hres.
Qed.

(** ** C3 and C4: what [check_result] misses *)

(** C3.  On the standard board (7 columns, 6 rows, runs of 4) the eleventh
    move of this game, by Player 1 in column 3, completes the rising
    diagonal (0,0), (1,1), (2,2), (3,3) of Player 1; every move is accepted
    and the result stays 0, no result yet, instead of 2. *)
Theorem rising_diagonal_not_detected :
  let game := play [0; 1; 1; 2; 3; 2; 2; 3; 6; 3; 3] (Game.init 7 6 4) in
  fst game = Ok true
  /\ cell (snd game) 0 0 = Ok false /\ cell (snd game) 1 1 = Ok false
  /\ cell (snd game) 2 2 = Ok false /\ cell (snd game) 3 3 = Ok false
  /\ get_result (snd game) = 0.
Proof. vm_compute. repeat split. Qed.

(** C4.  On a board of 5 columns and 2 rows with runs of 4, the tenth and
    last move of this game, by Player 2 in column 3, completes the upper row
    (0,1), (1,1), (2,1), (3,1) of Player 2 and fills the board; the result
    is 1, a draw, instead of 3. *)
Theorem full_board_win_reported_as_draw :
  let game := play [0; 2; 1; 0; 3; 1; 4; 2; 4; 3] (Game.init 5 2 4) in
  fst game = Ok true
  /\ all_full (snd game) = true
  /\ cell (snd game) 0 1 = Ok true /\ cell (snd game) 1 1 = Ok true
  /\ cell (snd game) 2 1 = Ok true /\ cell (snd game) 3 1 = Ok true
  /\ get_result (snd game) = 1.
Proof. vm_compute. repeat split. Qed.

(** ** C5: what [set_position] accepts *)

(** The string ["1x2 3"] has one token where the board has seven columns, a
    character that is no piece and a turn marker that is no player; it is
    decoded without any error into a board of one column, Player 1 to move,
    whose size still says seven columns. *)
Lemma set_position_accepts_malformed :
  exists b',
    set_position s!"1x2 3" (Game.init 7 6 4) = (Ok tt, b')
    /\ _board b' = [[false; true]] /\ _turn b' = false
    /\ size b' = (7, 6) /\ len (_board b') <> fst (size b').
Proof. eexists. vm_compute. repeat split. discriminate. Qed.

(** The pieces of a token, said without the code: the characters ['1'] and
    ['2'] are kept, in their order, and ['2'] is a piece of Player 2. *)
Lemma chunk_pieces_keeps (w : str) :
  chunk_pieces w
  = map (fun ch => bool_decide (ch = "2"%char))
        (filter (fun ch => ch = "1"%char \/ ch = "2"%char) w).
Proof.
  induction w as [|ch w IH]; [reflexivity|]. simpl.
  destruct (Ascii.eqb_spec ch "1") as [->|H1].
  - rewrite filter_cons_True by now left. simpl. now rewrite IH.
  - destruct (Ascii.eqb_spec ch "2") as [->|H2].
    + rewrite filter_cons_True by now right. simpl. now rewrite IH.
    + rewrite filter_cons_False by (intros [?|?]; congruence). exact IH.
Qed.

(** The ten characters that [int] reads as decimal digits, among those of
    code points 0 to 255. *)
Lemma int_of_digit (last : ascii) :
  last ∈ s!"0123456789" ->
  exists n, int_of_char last = Ok n
            /\ (n =? 2) = bool_decide (last = "2"%char).
Proof.
  intros H. simpl in H.
  repeat (apply elem_of_cons in H as [->|H]; [eexists; split; reflexivity|]).
  now apply elem_of_nil in H.
Qed.

Lemma join_cons_nonempty sep w (ws : list str) :
  ws <> [] -> join sep (w :: ws) = w ++ sep ++ join sep ws.
Proof. destruct ws; [congruence|reflexivity]. Qed.

Lemma join_head sep ch w (ws : list str) :
  join sep ((ch :: w) :: ws) = ch :: join sep (w :: ws).
Proof. destruct ws; reflexivity. Qed.

(** Every string is made of tokens without a space, single spaces between
    them: no string is left out by a statement on such tokens. *)
Lemma join_split (s : str) :
  split " " s <> []
  /\ Forall (fun w => " "%char ∉ w) (split " " s)
  /\ join s!" " (split " " s) = s.
Proof.
  split; [apply split_nonempty|].
  induction s as [|ch s [IHn IHj]].
  - split; [repeat constructor; apply not_elem_of_nil|reflexivity].
  - pose proof (split_nonempty " " s) as Hs. cbn [split].
    destruct (Ascii.eqb_spec ch " ") as [->|Hne].
    + split; [constructor; [apply not_elem_of_nil|assumption]|].
      rewrite join_cons_nonempty by assumption. now rewrite IHj.
    + destruct (split " " s) as [|w ws]; [congruence|].
      apply Forall_cons in IHn as [Hw Hws]. split.
      * constructor; [|assumption]. intros Hin.
        apply elem_of_cons in Hin as [<-|Hin]; [congruence|now apply Hw].
      * now rewrite join_head, IHj.
Qed.

Lemma slice_to_before_last (pre : str) (last : ascii) :
  slice_to (pre ++ [last]) (-2) = removelast pre.
Proof.
  destruct pre as [|x pre] using rev_ind; [reflexivity|].
  rewrite removelast_last, <- app_assoc. apply slice_to_drop2.
Qed.

(** C5, as the code has it.  [set_position] knows no format error and checks
    nothing.  Take any string that ends in one of the ten ASCII digits, and
    the tokens without a space, one at least, that single spaces join into
    the string without its last two characters; every string has such
    tokens ([join_split]).  Then [set_position] returns normally: Player 2
    is to move when the digit is ['2'] and Player 1 for each of the nine
    others; the columns are the tokens in reverse order, however many there
    are, each token giving the pieces of its ['1'] and ['2'] in their order,
    ['2'] for Player 2, every other character being skipped; all other
    attributes stay. *)
Theorem set_position_checks_nothing (pre : str) (last : ascii)
  (tokens : list str) b :
  last ∈ s!"0123456789" ->
  tokens <> [] -> Forall (fun w => " "%char ∉ w) tokens ->
  join s!" " tokens = removelast pre ->
  set_position (pre ++ [last]) b =
  (Ok tt,
   mkBoard
     (rev (map (fun w =>
                  map (fun ch => bool_decide (ch = "2"%char))
                      (filter (fun ch => ch = "1"%char \/ ch = "2"%char) w))
               tokens))
     (size b) (connect_num b) (_result b) (_win_reason b)
     (bool_decide (last = "2"%char)) (win_locs b)).
Proof.
  intros Hlast Hne Htok Hjoin.
  destruct (int_of_digit last Hlast) as (n & Hn & Hturn).
  rewrite (set_position_digit _ last n b (getitem_last _ last) Hn).
  rewrite slice_to_before_last, <- Hjoin.
  change s!" " with [" "%char]. rewrite split_join by assumption.
  rewrite (map_ext _ _ chunk_pieces_keeps), Hturn. reflexivity.
Qed.

Lemma set_position_checks_nothing_witness :
  set_position (s!"12 x " ++ ["7"%char]) (Game.init 3 6 4) =
  (Ok tt, mkBoard [[]; [false; true]] (3, 6) 4 0 0 false []).
Proof.
  apply (set_position_checks_nothing s!"12 x " "7"%char [s!"12"; s!"x"]
           (Game.init 3 6 4)).
  - apply list_elem_of_In. simpl. auto 12.
  - discriminate.
  - repeat first [apply Forall_nil_2 | apply Forall_cons_2];
      intros H; repeat (apply elem_of_cons in H as [H|H]; [discriminate|]);
      now apply elem_of_nil in H.
  - reflexivity.
Defined.

(** ** C6: [bestmoves] without a legal move *)

(** On the full board of C4 [bestmoves] does fail, but with the
    [ValueError] that [max] raises on an empty sequence. *)
Lemma bestmoves_full_board_ValueError :
  let b := snd (play [0; 2; 1; 0; 3; 1; 4; 2; 4; 3] (Game.init 5 2 4)) in
  all_available_moves b = Ok []
  /\ exists e, fst (bestmoves (Engine.init, b)) = Raise e
               /\ exn_name e = "ValueError"%string
               /\ exn_name e <> "InvalidState"%string.
Proof.
  split; [reflexivity|]. exists ValueError. repeat split. discriminate.
Qed.

(** C6, as the code has it.  On every board without a legal move,
    [bestmoves] returns no list at all: it raises [ValueError], the error of
    [max] on the empty collection of values, having assigned
    [self.lookups] and left the board as it was. *)
Theorem bestmoves_without_moves e b :
  all_available_moves b = Ok [] ->
  bestmoves (e, b) = (Raise ValueError, (set_lookups (Some 0) e, b)).
Proof.
  intros H. unfold bestmoves, bind, eval, on_engine, modify. simpl.
  now rewrite H.
Qed.

Lemma bestmoves_without_moves_witness :
  bestmoves (Engine.init, snd (play [0] (Game.init 1 1 4)))
  = (Raise ValueError,
     (set_lookups (Some 0) Engine.init, snd (play [0] (Game.init 1 1 4)))).
Proof.
  apply (bestmoves_without_moves Engine.init
           (snd (play [0] (Game.init 1 1 4)))).
  reflexivity.
Defined.

(** ** C9: the values of the search *)

Section Keeps.

Context {S : Type} (I : S -> Prop).

Lemma keeps_ret {A} (Q : A -> Prop) a : Q a -> keeps I Q (ret a).
Proof. intros Ha s Hs. split; [assumption|]. now intros a' [= <-]. Qed.

Lemma keeps_bind {A B} (Q1 : A -> Prop) (Q2 : B -> Prop) m k :
  keeps I Q1 m -> (forall a, Q1 a -> keeps I Q2 (k a)) ->
  keeps I Q2 (bind m k).
Proof.
  intros Hm Hk s Hs. unfold bind.
  destruct (Hm s Hs) as [Hs' Ha].
  destruct (m s) as [[a|e] s']; simpl in *.
  - now apply Hk; [apply Ha|].
  - split; [assumption|discriminate].
Qed.

Lemma keeps_eval {A} (f : S -> outcome A) : keeps I (fun _ => True) (eval f).
Proof. intros s Hs. now split. Qed.

Lemma keeps_get : keeps I I get.
Proof. intros s Hs. split; [assumption|]. now intros a [= <-]. Qed.

Lemma keeps_weaken {A} (Q Q' : A -> Prop) m :
  (forall a, Q a -> Q' a) -> keeps I Q m -> keeps I Q' m.
Proof. intros HQ Hm s Hs. destruct (Hm s Hs). split; auto. Qed.

End Keeps.

Lemma keeps_on_board {A} (m : M C4Board A) :
  keeps table_ok (fun _ => True) (on_board m).
Proof.
  intros [e b] He. unfold on_board. simpl. now destruct (m b).
Qed.

Lemma negamax_loop_keeps deeper :
  (forall a b, keeps table_ok score (deeper a b)) ->
  forall moves alpha beta best_value,
    score best_value ->
    keeps table_ok score (negamax_loop deeper moves alpha beta best_value).
Proof.
  intros Hd moves. induction moves as [|move rest IH];
    intros alpha beta best Hbest; simpl.
  - now apply keeps_ret.
  - eapply keeps_bind; [apply keeps_eval|]. intros currfen _.
    eapply keeps_bind; [apply keeps_on_board|]. intros _ _.
    eapply keeps_bind; [apply Hd|]. intros v Hv.
    eapply keeps_bind; [apply keeps_on_board|]. intros _ _.
    assert (score (Z.max best (- v))) by (unfold score in *; lia).
    destruct (Z.max alpha (- v) >=? beta).
    + now apply keeps_ret.
    + now apply IH.
Qed.

Lemma negamax_body_keeps deeper alpha beta :
  (forall a b, keeps table_ok score (deeper a b)) ->
  keeps table_ok score (negamax_body deeper alpha beta).
Proof.
  intros Hd. unfold negamax_body.
  eapply keeps_bind; [apply keeps_get|]. intros w Hw.
  destruct (get_result (snd w) >=? 2);
    [apply keeps_ret; unfold score; lia|].
  destruct (get_result (snd w) =? 1);
    [apply keeps_ret; unfold score; lia|].
  destruct (ttable (fst w) !! get_fen (snd w)) as [v|] eqn:Hlook.
  - eapply keeps_bind with (Q1 := fun _ => True).
    + intros [e b] He. now split.
    + intros _ _. apply keeps_ret. exact (Hw _ _ Hlook).
  - eapply keeps_bind; [apply keeps_eval|]. intros moves _.
    eapply keeps_bind;
      [apply negamax_loop_keeps; [assumption|unfold score; lia]|].
    intros best Hbest.
    eapply keeps_bind; [apply keeps_get|]. intros w' _.
    eapply keeps_bind with (Q1 := fun _ => True).
    + intros [e b] He. split; [|done]. simpl.
      now apply map_Forall_insert_2.
    + intros _ _. now apply keeps_ret.
Qed.

Lemma negamax_at_keeps depth :
  forall alpha beta, keeps table_ok score (negamax_at depth alpha beta).
Proof.
  induction depth as [|d IH]; intros alpha beta; simpl.
  - eapply keeps_bind; [apply keeps_get|]. intros w _.
    apply keeps_ret. unfold evaluate_position, score.
    destruct (get_result (snd w)) as [|[[|[]|]|[]|]|]; lia.
  - now apply negamax_body_keeps.
Qed.

(** C9.  Let the transposition table of the engine hold scores only, as the
    empty table of a new engine does.  Then for every board, window, ply
    and ply limit, any integer that [negamax] returns is a score, between
    -100 and 100, be it from the static evaluation at the limit, from a
    decided game, from the table or from the search; and the table holds
    scores only afterwards, whether the call returned or raised. *)
Theorem negamax_bounded alpha beta ply e b :
  ttable_bounded e ->
  ttable_bounded (fst (snd (negamax alpha beta ply (e, b))))
  /\ forall v, fst (negamax alpha beta ply (e, b)) = Ok v -> -100 <= v <= 100.
Proof.
  intros He. unfold negamax.
  now apply (negamax_at_keeps _ alpha beta (e, b)).
Qed.

Lemma negamax_bounded_witness :
  exists v,
    fst (negamax (-100) 100 0 (Engine.init, Game.init 1 2 4)) = Ok v
    /\ -100 <= v <= 100.
Proof.
  exists 0. split; [reflexivity|].
  apply (negamax_bounded (-100) 100 0 Engine.init (Game.init 1 2 4));
    [apply map_Forall_empty|reflexivity].
Defined.

(** ** Moves and searches that return *)

Lemma sound_same_position b b' : sound b -> same_position b b' -> sound b'.
Proof.
  intros [Hc Hr] (Hb & _ & Hs & Hn). unfold sound, columns_match in *.
  now rewrite Hb, Hs, Hn.
Qed.

Lemma same_position_refl b : same_position b b.
Proof. now repeat split. Qed.

(** On a sound board a move returns, accepted or refused, and the board
    stays sound. *)
Lemma make_move_returns col b :
  sound b ->
  exists ok b',
    make_move_at_column col b = (Ok ok, b')
    /\ sound b' /\ size b' = size b /\ connect_num b' = connect_num b.
Proof.
  intros [Hc Hr]. rewrite make_move_unfold. unfold columns_match in Hc.
  destruct (Z.ltb_spec col 0); [now exists false, b|].
  destruct (Z.leb_spec (fst (size b)) col); [now exists false, b|]. simpl.
  destruct (getitem_total (_board b) col) as [c ->]; [lia|].
  destruct (len c =? snd (size b)); [now exists false, b|].
  rewrite index_inside by lia.
  assert (Hs : sound (dropped (Z.to_nat col) b)).
  { split; [|assumption]. unfold columns_match, len. simpl.
    rewrite length_alter. exact Hc. }
  destruct Hs as [Hc' Hr'].
  destruct (check_result_returns _ Hc' Hr') as [r ->].
  exists true, (set_result r (dropped (Z.to_nat col) b)).
  repeat split; assumption.
Qed.

Lemma available_moves_fold b (cols : list Z) :
  (forall i, i ∈ cols -> 0 <= i < len (_board b)) ->
  exists l,
    fold_right (fun i acc =>
                  let! c := getitem (_board b) i in
                  let! rest := acc in
                  Ok (if len c <? snd (size b) then i :: rest else rest))
               (Ok []) cols = Ok l.
Proof.
  induction cols as [|i cols IH]; intros Hin; simpl; [eauto|].
  destruct (getitem_total (_board b) i) as [c ->]; [apply Hin; left|].
  destruct IH as [l ->]; [intros j Hj; apply Hin; now right|].
  simpl. eauto.
Qed.

Lemma all_available_moves_ok b :
  columns_match b ->
  exists l, all_available_moves b = Ok l /\ (l <> [] -> _board b <> []).
Proof.
  intros Hc. unfold columns_match in Hc.
  destruct (available_moves_fold b (range 0 (fst (size b)))) as [l Hl].
  { intros i Hi. apply elem_of_range in Hi. lia. }
  exists l. split; [exact Hl|].
  intros Hne Hb. apply Hne. unfold all_available_moves in Hl.
  rewrite Hb in Hc. unfold len in Hc. simpl in Hc. rewrite <- Hc in Hl.
  simpl in Hl. congruence.
Qed.

Lemma all_available_moves_same b b' :
  same_position b b' -> all_available_moves b' = all_available_moves b.
Proof.
  intros (Hb & _ & Hs & _). unfold all_available_moves. now rewrite Hb, Hs.
Qed.

Lemma negamax_loop_returns deeper b0 :
  restoring deeper -> sound b0 ->
  forall moves alpha beta best_value,
    score best_value -> (moves <> [] -> _board b0 <> []) ->
    returns (at_position b0)
            (negamax_loop deeper moves alpha beta best_value)
            (fun v w => score v /\ at_position b0 w).
Proof.
  intros Hd Hb0 moves.
  induction moves as [|move rest IH]; intros alpha beta best Hbest Hne.
  - intros w Hw. exists best, w. now split.
  - intros [e b] [Hpos Htt]. simpl in Hpos, Htt.
    assert (Hsb : sound b) by eauto using sound_same_position.
    destruct (make_move_returns move b Hsb) as (ok & b1 & Hmv & Hs1 & Hz1 & Hn1).
    destruct (Hd (- beta) (- alpha) b1 Hs1 (e, b1))
      as (v & [e2 b2] & Hdv & Hv & Hpos2 & Htt2).
    { split; [apply same_position_refl|assumption]. }
    simpl in Hpos2, Htt2.
    assert (Hfen : get_fen b = get_fen b0).
    { destruct Hpos as (H1 & H2 & _). now apply get_fen_pieces. }
    assert (Hback : at_position b0
              (e2, set_board (_board b0) (set_turn_flag (_turn b0) b2))).
    { split; [|assumption]. destruct Hpos as (_ & _ & H3 & H4).
      destruct Hpos2 as (_ & _ & H5 & H6). repeat split; simpl; congruence. }
    cbn [negamax_loop]. unfold bind at 1, eval at 1. cbn [snd].
    unfold bind at 1, on_board at 1. cbn [snd fst]. rewrite Hmv.
    unfold bind at 1. rewrite Hdv.
    unfold bind at 1, on_board at 1. cbn [snd fst].
    rewrite Hfen, set_position_get_fen by (apply Hne; discriminate).
    assert (score (Z.max best (- v))) by (unfold score in *; lia).
    destruct (Z.max alpha (- v) >=? beta).
    + eexists _, _. split; [reflexivity|]. now split.
    + apply IH; [assumption|intros _; apply Hne; discriminate|assumption].
Qed.

Lemma negamax_body_returns deeper alpha beta b0 :
  restoring deeper -> sound b0 ->
  returns (at_position b0) (negamax_body deeper alpha beta)
          (fun v w => score v /\ at_position b0 w).
Proof.
  intros Hd Hb0 [e b] Hw. pose proof Hw as [Hpos Htt]. simpl in Hpos, Htt.
  unfold negamax_body, bind at 1, get at 1. cbn [snd fst].
  destruct (get_result b >=? 2).
  { eexists _, _. split; [reflexivity|]. split; [unfold score; lia|done]. }
  destruct (get_result b =? 1).
  { eexists _, _. split; [reflexivity|]. split; [unfold score; lia|done]. }
  destruct (ttable e !! get_fen b) as [v|] eqn:Hlook.
  { eexists _, _. split; [reflexivity|]. split; [exact (Htt _ _ Hlook)|].
    now split. }
  destruct (all_available_moves_ok b0) as (moves & Hmoves & Hne);
    [apply Hb0|].
  unfold bind at 1, eval at 1. cbn [snd].
  rewrite (all_available_moves_same b0 b Hpos), Hmoves.
  destruct (negamax_loop_returns deeper b0 Hd Hb0 moves alpha beta (-100))
    with (s := (e, b)) as (best & [e' b'] & Hloop & Hbest & Hpos' & Htt');
    [unfold score; lia|assumption|assumption|].
  simpl in Hpos', Htt'.
  unfold bind at 1. rewrite Hloop.
  eexists _, _. split; [reflexivity|]. split; [assumption|].
  split; [assumption|]. simpl. now apply map_Forall_insert_2.
Qed.

Lemma negamax_at_restoring depth : restoring (negamax_at depth).
Proof.
  induction depth as [|d IH]; intros alpha beta b1 Hb1.
  - intros [e b] Hw. eexists _, _. split; [reflexivity|].
    split; [|assumption]. unfold evaluate_position, score. simpl.
    destruct (get_result b) as [|[[|[]|]|[]|]|]; lia.
  - now apply negamax_body_returns.
Qed.

(** X22.  With runs of four or more, on a board that has all its columns,
    with a table of scores and ten plies at most left to the ply limit, as
    in every search of a new engine, [negamax] raises nothing: it returns a
    score and leaves columns, turn and configuration of the board as they
    were. *)
Lemma negamax_returns alpha beta ply e b :
  sound b -> ttable_bounded e ->
  PLY_LIMIT e - ply <= 10 ->
  exists v e' b',
    negamax alpha beta ply (e, b) = (Ok v, (e', b'))
    /\ score v /\ same_position b b' /\ ttable_bounded e'.
Proof.
  intros Hb He _. unfold negamax.
  destruct (negamax_at_restoring (Z.to_nat (PLY_LIMIT e - ply))
              alpha beta b Hb (e, b))
    as (v & [e' b'] & Hrun & Hv & Hpos & Htt).
  { split; [apply same_position_refl|assumption]. }
  exists v, e', b'. auto.
Qed.

Lemma dict_set_nonempty k v d : dict_set k v d <> [].
Proof.
  destruct d as [|[k' v'] d]; simpl; [discriminate|].
  destruct (k' =? k); discriminate.
Qed.

Lemma bestmoves_loop_returns b0 :
  sound b0 ->
  forall moves evals,
    (moves <> [] -> _board b0 <> []) ->
    returns (at_position b0) (bestmoves_loop (get_fen b0) moves evals)
            (fun evals' w =>
               at_position b0 w /\ (moves <> [] -> evals' <> [])).
Proof.
  intros Hb0 moves. induction moves as [|col rest IH]; intros evals Hne.
  - intros w Hw. exists evals, w. split; [reflexivity|].
    split; [assumption|congruence].
  - intros [e b] [Hpos Htt]. simpl in Hpos, Htt.
    assert (Hsb : sound b) by eauto using sound_same_position.
    destruct (make_move_returns col b Hsb) as (ok & b1 & Hmv & Hs1 & Hz1 & Hn1).
    destruct (negamax_at_restoring (Z.to_nat (PLY_LIMIT e - 0)) (-100) 100
                b1 Hs1 (e, b1))
      as (v & [e2 b2] & Hdv & Hv & Hpos2 & Htt2).
    { split; [apply same_position_refl|assumption]. }
    simpl in Hpos2, Htt2.
    assert (Hback : at_position b0
              (e2, set_board (_board b0) (set_turn_flag (_turn b0) b2))).
    { split; [|assumption]. destruct Hpos as (_ & _ & H3 & H4).
      destruct Hpos2 as (_ & _ & H5 & H6). repeat split; simpl; congruence. }
    cbn [bestmoves_loop].
    unfold bind at 1, on_board at 1. cbn [snd fst]. rewrite Hmv.
    unfold bind at 1, negamax at 1. cbn [fst]. rewrite Hdv.
    unfold bind at 1, on_board at 1. cbn [snd fst].
    rewrite set_position_get_fen by (apply Hne; discriminate).
    destruct (IH (dict_set col (- v) evals)) with (s := (e2,
      set_board (_board b0) (set_turn_flag (_turn b0) b2)))
      as (evals' & w' & Hrun & Hw' & Hev);
      [intros _; apply Hne; discriminate|assumption|].
    exists evals', w'. split; [exact Hrun|]. split; [assumption|].
    intros _. destruct rest as [|col' rest'].
    + simpl in Hrun. injection Hrun as <- <-. apply dict_set_nonempty.
    + apply Hev. discriminate.
Qed.

(** X23.  With runs of four or more, on a board that has all its columns,
    of which one at least is not full, and with a ply limit of ten at most,
    as a new engine has it, [bestmoves] returns a list of columns and
    restores the columns and the turn of the board.  Nothing is said of
    [_result]: see [bestmoves_leaves_stale_result]. *)
Lemma bestmoves_restores_position e b moves :
  sound b -> ttable_bounded e ->
  PLY_LIMIT e <= 10 ->
  all_available_moves b = Ok moves -> moves <> [] ->
  exists l e' b',
    bestmoves (e, b) = (Ok l, (e', b'))
    /\ same_position b b' /\ ttable_bounded e'.
Proof.
  intros Hb He _ Hmoves Hne.
  destruct (all_available_moves_ok b (proj1 Hb)) as (moves' & Hm' & Hboard).
  assert (moves' = moves) as -> by congruence.
  destruct (bestmoves_loop_returns b Hb moves [] (fun _ => Hboard Hne))
    with (s := (set_lookups (Some 0) e, b))
    as (evals & [e' b'] & Hrun & [Hpos Htt] & Hev).
  { split; [apply same_position_refl|assumption]. }
  simpl in Hpos, Htt.
  unfold bestmoves, bind at 1, eval at 1. cbn [snd].
  unfold bind at 1, on_engine at 1, modify at 1. cbn [snd fst].
  unfold bind at 1, eval at 1. cbn [snd]. rewrite Hmoves.
  unfold bind at 1. rewrite Hrun.
  unfold bind at 1, eval at 1.
  destruct evals as [|[k v] evals]; [now destruct Hev|].
  cbn [map max_of].
  eexists _, _, _. split; [reflexivity|]. split; assumption.
Qed.

(** ** C2: what [bestmoves] leaves behind *)

(** C2.  On a board of 4 columns and 4 rows with runs of 4, after three
    moves of each player, Player 1 in column 3 and Player 2 in column 0, the
    game is open and [get_result] gives 0.  [bestmoves] of a new engine
    returns column 3 and restores columns and turn, but [get_result] gives 2
    afterwards, a win of Player 1 on a board that shows none: the last
    position tried was that win, and [set_position] does not touch
    [_result]. *)
Theorem bestmoves_leaves_stale_result :
  let b := snd (play [3; 0; 3; 0; 3; 0] (Game.init 4 4 4)) in
  let after := bestmoves (Engine.init, b) in
  _board b = [[true; true; true]; []; []; [false; false; false]]
  /\ fst after = Ok [3]
  /\ _board (snd (snd after)) = _board b
  /\ _turn (snd (snd after)) = _turn b
  /\ get_result b = 0
  /\ get_result (snd (snd after)) = 2.
Proof. vm_compute. repeat split. Qed.

(** ** Further properties of the board *)

(** *** What moves and undos keep *)

(** The effect of a move on the board, whatever it returns or raises:
    nothing, or a piece dropped on a column that was not full and some
    result written. *)
Lemma make_move_effect col b :
  snd (make_move_at_column col b) = b
  \/ exists k c r,
       _board b !! k = Some c /\ len c <> snd (size b)
       /\ snd (make_move_at_column col b) = set_result r (dropped k b)
       /\ snd (check_result (dropped k b)) = set_result r (dropped k b).
Proof.
  rewrite make_move_unfold.
  destruct ((col <? 0) || _); [now left|].
  destruct (getitem _ col) as [c|] eqn:Hc; [|now left].
  destruct (Z.eqb_spec (len c) (snd (size b))); [now left|].
  destruct (index _ col) as [k|] eqn:Hk; [|now left].
  apply getitem_Ok in Hc as (k' & Hk' & Hl).
  assert (k' = k) as -> by congruence.
  destruct (check_result_frame (dropped k b)) as [r Hr].
  right. exists k, c, r. repeat split; try assumption.
  destruct (check_result (dropped k b)) as [[[]|e] b']; exact Hr.
Qed.

(** The effect of an undo: nothing, or the top piece of a column that was
    not empty taken off. *)
Lemma delete_move_effect col b :
  snd (delete_move_at_column col b) = b
  \/ exists k c,
       _board b !! k = Some c /\ c <> []
       /\ snd (delete_move_at_column col b) = lifted k b.
Proof.
  rewrite delete_move_unfold.
  destruct (getitem _ col) as [c|] eqn:Hc; [|now left].
  destruct (Z.eqb_spec (len c) 0); [now left|].
  destruct (index _ col) as [k|] eqn:Hk; [|now left].
  apply getitem_Ok in Hc as (k' & Hk' & Hl).
  assert (k' = k) as -> by congruence.
  right. exists k, c. repeat split; try assumption.
  intros ->. now apply n.
Qed.

Lemma Forall_alter_height (rows : Z) f k (l : list (list bool)) c :
  l !! k = Some c -> len (f c) <= rows ->
  Forall (fun c => len c <= rows) l ->
  Forall (fun c => len c <= rows) (alter f k l).
Proof.
  intros Hk Hf Hall. apply Forall_lookup. intros i x Hx.
  destruct (decide (i = k)) as [->|Hne].
  - rewrite list_lookup_alter_eq, Hk in Hx. simpl in Hx. now inversion Hx.
  - rewrite list_lookup_alter_ne in Hx by congruence.
    eapply Forall_lookup_1 in Hall; eauto.
Qed.

Lemma len_removelast (c : list bool) : len (removelast c) <= len c.
Proof.
  destruct c as [|p c] using rev_ind; [reflexivity|].
  rewrite removelast_last, len_app. unfold len. simpl. lia.
Qed.

(** X1.  A board made with zero or more columns and zero or more rows keeps
    its shape through every move and undo, accepted, refused or raising:
    it has as many columns as [size] says, no column is higher than the
    number of rows, and [size] and [connect_num] are those of its making. *)
Theorem reachable_shape cols rows connect b :
  0 <= cols -> 0 <= rows ->
  reachable cols rows connect b ->
  columns_match b /\ within_rows b
  /\ size b = (cols, rows) /\ connect_num b = connect.
Proof.
  intros Hcols Hrows Hb.
  destruct (reachable_columns _ _ _ _ Hb) as (Hlen & Hsz & Hcn).
  split; [|split; [|now split]].
  { unfold columns_match, len. rewrite Hlen, Hsz. simpl. lia. }
  clear Hlen Hcn. unfold within_rows. rewrite Hsz. simpl. clear Hsz.
  induction Hb as [|b col Hb IH|b col Hb IH].
  - simpl. apply Forall_forall. intros c Hc.
    apply list_elem_of_fmap in Hc as (i & -> & _). unfold len. simpl. lia.
  - destruct (reachable_columns _ _ _ _ Hb) as (_ & Hsz & _).
    destruct (make_move_effect col b) as [->|(k & c & r & Hk & Hfull & -> & _)];
      [assumption|].
    simpl. apply (Forall_alter_height rows _ k _ c Hk); [|assumption].
    pose proof (Forall_lookup_1 _ _ _ _ IH Hk) as Hc. simpl in Hc.
    rewrite Hsz in Hfull. simpl in Hfull.
    rewrite len_app. unfold len at 2. simpl. lia.
  - destruct (delete_move_effect col b) as [->|(k & c & Hk & Hne & ->)];
      [assumption|].
    simpl. apply (Forall_alter_height rows _ k _ c Hk); [|assumption].
    pose proof (Forall_lookup_1 _ _ _ _ IH Hk) as Hc. simpl in Hc.
    pose proof (len_removelast c). lia.
Qed.

Lemma reachable_shape_witness :
  columns_match (snd (play [3; 3; 4] (Game.init 7 6 4)))
  /\ within_rows (snd (play [3; 3; 4] (Game.init 7 6 4)))
  /\ size (snd (play [3; 3; 4] (Game.init 7 6 4))) = (7, 6)
  /\ connect_num (snd (play [3; 3; 4] (Game.init 7 6 4))) = 4.
Proof.
  apply (reachable_shape 7 6 4); [lia|lia|].
  change (snd (play [3; 3; 4] (Game.init 7 6 4)))
    with (snd (make_move_at_column 4
           (snd (make_move_at_column 3
             (snd (make_move_at_column 3 (Game.init 7 6 4))))))).
  repeat apply reach_move. apply reach_init.
Defined.

(** *** The result and the turn *)

Lemma for_return_Some {X R} (l : list X) (body : X -> outcome (option R)) v :
  for_return l body = Ok (Some v) ->
  exists x, x ∈ l /\ body x = Ok (Some v).
Proof.
  induction l as [|x l IH]; simpl; [discriminate|].
  destruct (body x) as [[v'|]|] eqn:Hx; simpl; [| |discriminate].
  - intros [= ->]. exists x. split; [left|assumption].
  - intros H. destruct (IH H) as (y & Hy & Hby). exists y. split; [now right|assumption].
Qed.

Lemma winner_at_value b i j w :
  winner_at b i j = Ok w -> exists p, cell b i j = Ok p /\ w = win_of p.
Proof.
  unfold winner_at. destruct (cell b i j) as [p|]; simpl; [|discriminate].
  destruct p; simpl; intros [= <-]; eauto.
Qed.

Lemma report_Some b test i j w :
  report b test i j = Ok (Some w) ->
  test = Ok true /\ exists p, cell b i j = Ok p /\ w = win_of p.
Proof.
  unfold report. destruct test as [[]|]; simpl; try discriminate.
  destruct (winner_at b i j) as [w'|] eqn:Hw; simpl; [|discriminate].
  intros [= <-]. split; [reflexivity|]. now apply winner_at_value.
Qed.

Lemma first_found_Some scans b r :
  first_found scans b = Ok (Some r) ->
  exists f, f ∈ scans /\ f b = Ok (Some r).
Proof.
  induction scans as [|f fs IH]; simpl; [discriminate|].
  destruct (f b) as [[v|]|] eqn:Hf; simpl; [| |discriminate].
  - intros [= ->]. exists f. split; [left|assumption].
  - intros H. destruct (IH H) as (g & Hg & Hgb). exists g. split; [now right|assumption].
Qed.

(** A scan of [check_result] that finds something finds a win. *)
Lemma scan_finds_a_win b r :
  first_found [scan_rising; scan_falling; scan_row; scan_column] b
  = Ok (Some r) ->
  r = 2 \/ r = 3.
Proof.
  intros H. apply first_found_Some in H as (f & Hf & Hr).
  assert (Hw : exists i j t, report b t i j = Ok (Some r)).
  { repeat (apply elem_of_cons in Hf as [->|Hf]);
      [| | | |now apply elem_of_nil in Hf];
      apply for_return_Some in Hr as (i & _ & Hr);
      destruct (getitem (_board b) i) as [c|]; simpl in Hr; try discriminate.
    - apply for_return_Some in Hr as (j & _ & Hr). eauto.
    - apply for_return_Some in Hr as (j & _ & Hr). eauto.
    - apply for_return_Some in Hr as (j & _ & Hr). eauto.
    - destruct (len c <? connect_num b); [discriminate|].
      apply for_return_Some in Hr as (j & _ & Hr). eauto. }
  destruct Hw as (i & j & t & Hw).
  apply report_Some in Hw as (_ & p & _ & ->). destruct p; auto.
Qed.

Lemma check_result_range b :
  exists r,
    snd (check_result b) = set_result r b
    /\ (r = _result b \/ 0 <= r <= 3).
Proof.
  unfold check_result. destruct (all_full b); [exists 1; split; [done|lia]|].
  destruct (first_found _ b) as [[r|]|e] eqn:Hf; simpl.
  - exists r. split; [done|]. apply scan_finds_a_win in Hf. lia.
  - exists 0. split; [done|lia].
  - exists (_result b). split; [now rewrite set_result_same|now left].
Qed.

(** X2.  Whatever moves and undos a board has seen, refused and raising
    ones included, its result is one of the four of the documentation: of
    "no result yet", [is_draw], [p1_won] and [p2_won] exactly one holds. *)
Theorem reachable_result cols rows connect b :
  reachable cols rows connect b ->
  0 <= get_result b <= 3
  /\ Z.b2z (get_result b =? 0) + Z.b2z (is_draw b)
     + Z.b2z (p1_won b) + Z.b2z (p2_won b) = 1.
Proof.
  intros Hb.
  assert (H : 0 <= _result b <= 3).
  { induction Hb as [|b col Hb IH|b col Hb IH].
    - simpl. lia.
    - destruct (make_move_effect col b)
        as [->|(k & c & r & _ & _ & -> & Hr)]; [assumption|].
      destruct (check_result_range (dropped k b)) as (r' & Hr' & Hrange).
      rewrite Hr in Hr'. apply (f_equal _result) in Hr'. simpl in *.
      subst r'. lia.
    - destruct (delete_move_effect col b) as [->|(k & c & _ & _ & ->)];
        [assumption|]. simpl. lia. }
  unfold get_result, is_draw, p1_won, p2_won. split; [assumption|].
  destruct (Z.eqb_spec (_result b) 0), (Z.eqb_spec (_result b) 1),
    (Z.eqb_spec (_result b) 2), (Z.eqb_spec (_result b) 3); simpl; lia.
Qed.

Lemma reachable_result_witness :
  0 <= get_result (snd (make_move_at_column 3 (Game.init 7 6 4))) <= 3
  /\ Z.b2z (get_result (snd (make_move_at_column 3 (Game.init 7 6 4))) =? 0)
     + Z.b2z (is_draw (snd (make_move_at_column 3 (Game.init 7 6 4))))
     + Z.b2z (p1_won (snd (make_move_at_column 3 (Game.init 7 6 4))))
     + Z.b2z (p2_won (snd (make_move_at_column 3 (Game.init 7 6 4)))) = 1.
Proof.
  apply (reachable_result 7 6 4). apply reach_move, reach_init.
Defined.

Lemma pieces_alter (f : list bool -> list bool) k (l : list (list bool)) c :
  l !! k = Some c ->
  (length (concat (alter f k l)) + length c
   = length (concat l) + length (f c))%nat.
Proof.
  revert k. induction l as [|x l IH]; intros [|k] Hk; simpl in *;
    try discriminate.
  - injection Hk as ->. rewrite !length_app. lia.
  - specialize (IH k Hk). unfold alter in IH. rewrite !length_app. lia.
Qed.

(** X3.  The turn follows the number of pieces: on every board that moves
    and undos have produced from a fresh one, Player 2 is to move exactly
    when the number of pieces on the board is odd, also after an undo in a
    column other than that of the last move and after a move on which
    [check_result] raised. *)
Theorem reachable_turn_parity cols rows connect b :
  reachable cols rows connect b ->
  _turn b = Nat.odd (pieces b)
  /\ get_turn b = 1 + Z.of_nat (pieces b mod 2).
Proof.
  intros Hb.
  assert (H : _turn b = Nat.odd (pieces b)).
  { induction Hb as [|b col Hb IH|b col Hb IH].
    - unfold pieces. simpl. induction (range 0 cols); [reflexivity|assumption].
    - destruct (make_move_effect col b)
        as [->|(k & c & r & Hk & _ & -> & _)]; [assumption|].
      unfold pieces in *. simpl.
      pose proof (pieces_alter (fun c => c ++ [_turn b]) k _ c Hk) as Hp.
      cbv beta in Hp. rewrite length_app in Hp. simpl in Hp.
      replace (length (concat (alter _ k (_board b))))
        with (S (length (concat (_board b)))) by lia.
      rewrite Nat.odd_succ, <- Nat.negb_odd. now rewrite IH.
    - destruct (delete_move_effect col b) as [->|(k & c & Hk & Hne & ->)];
        [assumption|].
      unfold pieces in *. simpl.
      pose proof (pieces_alter (fun c => removelast c) k _ c Hk) as Hp.
      destruct c as [|p c] using rev_ind; [congruence|].
      cbv beta in Hp. rewrite removelast_last, length_app in Hp. simpl in Hp.
      replace (length (concat (_board b)))
        with (S (length (concat (alter (fun c => removelast c) k (_board b)))))
        in IH by lia.
      rewrite Nat.odd_succ, <- Nat.negb_odd in IH. rewrite IH.
      now rewrite negb_involutive. }
  split; [assumption|].
  unfold get_turn. rewrite H.
  pose proof (Nat.mod_upper_bound (pieces b) 2).
  destruct (Nat.odd (pieces b)) eqn:Hodd.
  - apply Nat.odd_spec in Hodd as [m ->].
    replace ((2 * m + 1) mod 2)%nat with 1%nat; [reflexivity|].
    rewrite Nat.add_comm, Nat.mul_comm, Nat.Div0.mod_add. reflexivity.
  - assert (Nat.even (pieces b) = true) as Hev.
    { rewrite <- Nat.negb_odd, Hodd. reflexivity. }
    apply Nat.even_spec in Hev as [m ->].
    rewrite Nat.mul_comm, Nat.Div0.mod_mul. reflexivity.
Qed.

Lemma reachable_turn_parity_witness :
  _turn (snd (make_move_at_column 3 (Game.init 7 6 4)))
  = Nat.odd (pieces (snd (make_move_at_column 3 (Game.init 7 6 4))))
  /\ get_turn (snd (make_move_at_column 3 (Game.init 7 6 4)))
     = 1 + Z.of_nat (pieces (snd (make_move_at_column 3 (Game.init 7 6 4)))
                     mod 2).
Proof.
  apply (reachable_turn_parity 7 6 4). apply reach_move, reach_init.
Defined.

(** *** The encoding as a key and as a format *)

(** X4.  The encoding is a faithful key: two boards of at least one column
    each that have the same encoding have the same columns and the same
    player to move, whatever their other attributes. *)
Theorem fen_key_injective b b' :
  _board b <> [] -> _board b' <> [] ->
  get_fen b = get_fen b' ->
  _board b = _board b' /\ _turn b = _turn b'.
Proof.
  intros Hb Hb' Hfen.
  pose proof (set_position_get_fen b b Hb) as H1.
  pose proof (set_position_get_fen b' b Hb') as H2.
  rewrite Hfen, H2 in H1. injection H1 as H1 H3. auto.
Qed.

Lemma fen_key_injective_witness :
  _board (snd (play [3] (Game.init 7 6 4)))
  = _board (set_result 2 (snd (play [3] (Game.init 7 6 4))))
  /\ _turn (snd (play [3] (Game.init 7 6 4)))
     = _turn (set_result 2 (snd (play [3] (Game.init 7 6 4)))).
Proof.
  apply (fen_key_injective (snd (play [3] (Game.init 7 6 4)))
           (set_result 2 (snd (play [3] (Game.init 7 6 4)))));
    [discriminate|discriminate|reflexivity].
Defined.

Lemma encode_chunk_pieces (w : str) :
  token w -> join [] (map piece_char (chunk_pieces w)) = w.
Proof.
  rewrite join_pieces. induction 1 as [|ch w [-> | ->] _ IH]; simpl;
    [reflexivity|now rewrite IH..].
Qed.

Lemma token_no_space (w : str) : token w -> " "%char ∉ w.
Proof.
  intros Hw Hin. unfold token in Hw. rewrite Forall_forall in Hw.
  destruct (Hw _ Hin); discriminate.
Qed.

(** X5.  The round trip from the string: a string made of one token or
    more of ['1'] and ['2'], single spaces between them, then a space and
    the turn marker ['1'] or ['2'], is decoded by [set_position] into a
    board of as many columns as it has tokens, and [get_fen] of that board
    gives the string back. *)
Theorem fen_decode_encode (chunks : list str) (d : ascii) b :
  chunks <> [] -> Forall token chunks ->
  d = "1"%char \/ d = "2"%char ->
  exists b',
    set_position (join s!" " chunks ++ s!" " ++ [d]) b = (Ok tt, b')
    /\ get_fen b' = join s!" " chunks ++ s!" " ++ [d]
    /\ length (_board b') = length chunks.
Proof.
  intros Hne Htok Hd.
  assert (Hfen : join s!" " chunks ++ s!" " ++ [d]
                 = (join s!" " chunks ++ [" "%char]) ++ [d])
    by now rewrite <- app_assoc.
  assert (Hn : int_of_char d = Ok (if Ascii.eqb d "2" then 2 else 1))
    by (destruct Hd as [-> | ->]; reflexivity).
  eexists. split; [|split].
  - rewrite Hfen at 1.
    rewrite (set_position_digit _ d _ b (getitem_last _ d) Hn).
    rewrite <- app_assoc. simpl app. rewrite slice_to_drop2.
    change s!" " with [" "%char]. rewrite split_join; [reflexivity|assumption|].
    eapply Forall_impl; [exact Htok|]. apply token_no_space.
  - unfold get_fen. simpl.
    rewrite map_rev, rev_involutive, map_map.
    rewrite (Forall_fmap_ext_1 _ id chunks), list_fmap_id.
    + destruct Hd as [-> | ->]; reflexivity.
    + eapply Forall_impl; [exact Htok|]. apply encode_chunk_pieces.
  - simpl. now rewrite length_rev, length_map.
Qed.

Lemma fen_decode_encode_witness :
  exists b',
    set_position (join s!" " [s!"12"; s!""; s!"2"] ++ s!" " ++ ["2"%char])
                 (Game.init 3 6 4) = (Ok tt, b')
    /\ get_fen b' = join s!" " [s!"12"; s!""; s!"2"] ++ s!" " ++ ["2"%char]
    /\ length (_board b') = length [s!"12"; s!""; s!"2"].
Proof.
  apply (fen_decode_encode [s!"12"; s!""; s!"2"] "2"%char (Game.init 3 6 4)).
  - discriminate.
  - unfold token.
    repeat first [apply Forall_nil_2 | apply Forall_cons_2];
      first [now left | now right].
  - now right.
Defined.

(** X6.  A decoding that fails has already emptied the board.  On the
    empty string [set_position] raises [IndexError], and on a string whose
    last character is no decimal digit it raises [ValueError]; either way
    the board is left without any column, its other attributes as before. *)
Theorem set_position_failure_empties b :
  set_position [] b = (Raise IndexError, set_board [] b)
  /\ forall (fen : str) (last : ascii),
       int_of_char last = Raise ValueError ->
       set_position (fen ++ [last]) b = (Raise ValueError, set_board [] b).
Proof.
  split; [reflexivity|]. intros fen last Hlast.
  unfold set_position, bind, modify, eval.
  now rewrite getitem_last, Hlast.
Qed.

Lemma set_position_failure_empties_witness :
  set_position s!"12 1x" (snd (play [3] (Game.init 7 6 4)))
  = (Raise ValueError, set_board [] (snd (play [3] (Game.init 7 6 4)))).
Proof.
  apply (proj2 (set_position_failure_empties
                  (snd (play [3] (Game.init 7 6 4)))) s!"12 1" "x"%char).
  reflexivity.
Defined.

Lemma length_split sep (s : str) :
  length (split sep s) = S (count_occ Ascii.ascii_dec s sep).
Proof.
  induction s as [|c s IH]; [reflexivity|]. simpl.
  destruct (Ascii.eqb_spec c sep) as [->|Hne].
  - simpl. rewrite IH. now destruct (Ascii.ascii_dec sep sep).
  - destruct (Ascii.ascii_dec c sep); [congruence|].
    destruct (split sep s); simpl in *; [discriminate|assumption].
Qed.

(** X7.  [set_position] takes the number of columns from the string, not
    from the board: after a decoding that returns, the board has one column
    more than there are spaces in the string without its last two
    characters, while [size] is what it was; so the columns match the size
    only if the string had as many tokens as the board has columns. *)
Theorem set_position_column_count (fen : str) b b' :
  set_position fen b = (Ok tt, b') ->
  len (_board b')
  = 1 + Z.of_nat (count_occ Ascii.ascii_dec (slice_to fen (-2)) " "%char)
  /\ size b' = size b
  /\ (columns_match b' <->
      1 + Z.of_nat (count_occ Ascii.ascii_dec (slice_to fen (-2)) " "%char)
      = fst (size b)).
Proof.
  intros Hset.
  destruct (getitem fen (-1)) as [last|e] eqn:Hlast.
  2:{ unfold set_position, bind, modify, eval in Hset.
      rewrite Hlast in Hset. discriminate. }
  destruct (int_of_char last) as [n|e] eqn:Hn.
  2:{ unfold set_position, bind, modify, eval in Hset.
      rewrite Hlast, Hn in Hset. discriminate. }
  rewrite (set_position_digit fen last n b Hlast Hn) in Hset.
  injection Hset as <-.
  assert (Hlen : len (rev (map chunk_pieces (split " " (slice_to fen (-2)))))
          = 1 + Z.of_nat (count_occ Ascii.ascii_dec (slice_to fen (-2)) " "%char)).
  { unfold len. rewrite length_rev, length_map, length_split. lia. }
  split; [exact Hlen|]. split; [reflexivity|].
  unfold columns_match. simpl. now rewrite Hlen.
Qed.

Lemma set_position_column_count_witness :
  len (_board (snd (set_position s!"1x2 3" (Game.init 7 6 4))))
  = 1 + Z.of_nat (count_occ Ascii.ascii_dec (slice_to s!"1x2 3" (-2)) " "%char)
  /\ size (snd (set_position s!"1x2 3" (Game.init 7 6 4)))
     = size (Game.init 7 6 4)
  /\ (columns_match (snd (set_position s!"1x2 3" (Game.init 7 6 4))) <->
      1 + Z.of_nat (count_occ Ascii.ascii_dec (slice_to s!"1x2 3" (-2)) " "%char)
      = fst (size (Game.init 7 6 4))).
Proof.
  apply (set_position_column_count s!"1x2 3" (Game.init 7 6 4)).
  reflexivity.
Defined.

(** X8.  [set_turn] and [get_turn]: setting the turn to what [get_turn]
    says changes nothing; after [set_turn n] the player to move is 2 when
    [n] is 2 and 1 for every other integer, and nothing but the turn has
    changed. *)
Theorem set_turn_get_turn b n :
  set_turn (get_turn b) b = (Ok tt, b)
  /\ get_turn (snd (set_turn n b)) = (if n =? 2 then 2 else 1)
  /\ snd (set_turn n b) = set_turn_flag (n =? 2) b.
Proof.
  split; [|split; [|reflexivity]].
  - unfold set_turn, modify, get_turn. destruct b as [? ? ? ? ? [] ?]; reflexivity.
  - unfold set_turn, modify, get_turn. simpl. now destruct (n =? 2).
Qed.

(** *** The legal moves *)

Lemma getitem_raises {A} (l : list A) i e :
  getitem l i = Raise e -> e = IndexError.
Proof.
  unfold getitem, index.
  destruct ((_ <? 0) || _); simpl; [now intros [= <-]|].
  destruct (l !! _); [discriminate|now intros [= <-]].
Qed.

Lemma available_moves_filter b (cols : list Z) l :
  fold_right (fun i acc =>
                let! c := getitem (_board b) i in
                let! rest := acc in
                Ok (if len c <? snd (size b) then i :: rest else rest))
             (Ok []) cols = Ok l ->
  l = List.filter (open_column b) cols.
Proof.
  revert l. induction cols as [|i cols IH]; intros l; simpl.
  - now intros [= <-].
  - unfold open_column at 1.
    destruct (getitem (_board b) i) as [c|]; simpl; [|discriminate].
    destruct (fold_right _ _ cols) as [rest|]; simpl; [|discriminate].
    intros [= <-]. rewrite <- (IH rest eq_refl).
    now destruct (len c <? snd (size b)).
Qed.

Lemma available_moves_raise b (cols : list Z) i :
  i ∈ cols -> getitem (_board b) i = Raise IndexError ->
  fold_right (fun i acc =>
                let! c := getitem (_board b) i in
                let! rest := acc in
                Ok (if len c <? snd (size b) then i :: rest else rest))
             (Ok []) cols = Raise IndexError.
Proof.
  intros Hi Hraise. induction cols as [|j cols IH]; [now apply elem_of_nil in Hi|].
  simpl. destruct (getitem (_board b) j) as [c|e] eqn:Hj; simpl.
  - apply elem_of_cons in Hi as [->|Hi]; [congruence|].
    now rewrite IH.
  - now rewrite (getitem_raises _ _ _ Hj).
Qed.

Lemma range_sorted (a b : Z) : StronglySorted Z.lt (range a b).
Proof.
  unfold range. generalize (b - a). intros n.
  remember (Z.to_nat n) as k eqn:Hk. revert a n Hk.
  induction k as [|k IH]; intros a n Hk.
  - rewrite seqZ_nil by lia. constructor.
  - rewrite seqZ_cons by lia. constructor; [apply IH; lia|].
    apply Forall_forall. intros x Hx. apply elem_of_seqZ in Hx. lia.
Qed.

Lemma filter_sorted (f : Z -> bool) (l : list Z) :
  StronglySorted Z.lt l -> StronglySorted Z.lt (List.filter f l).
Proof.
  induction 1 as [|x l Hs IH Hx]; simpl; [constructor|].
  destruct (f x); [|assumption]. constructor; [assumption|].
  rewrite Forall_forall in *. intros y Hy.
  apply list_elem_of_In, filter_In in Hy as [Hy _].
  apply Hx. now apply list_elem_of_In.
Qed.

Lemma available_moves_spec b l :
  all_available_moves b = Ok l ->
  l = List.filter (open_column b) (range 0 (fst (size b)))
  /\ StronglySorted Z.lt l
  /\ forall col,
       col ∈ l <->
       0 <= col < fst (size b)
       /\ exists c, getitem (_board b) col = Ok c /\ len c < snd (size b).
Proof.
  intros Hl. apply available_moves_filter in Hl. split; [assumption|].
  split; [subst l; apply filter_sorted, range_sorted|].
  intros col. subst l. rewrite list_elem_of_In, filter_In, <- list_elem_of_In.
  rewrite elem_of_range. unfold open_column.
  split.
  - intros [Hcol Hopen]. split; [lia|].
    destruct (getitem (_board b) col) as [c|]; [|discriminate].
    exists c. split; [reflexivity|lia].
  - intros [Hcol (c & -> & Hc)]. split; [lia|]. lia.
Qed.

(** X9.  What [all_available_moves] returns, when it returns: the columns
    from 0 to the column count of [size] that are lower than the number of
    rows, each once and in ascending order. *)
Theorem all_available_moves_exact b l :
  all_available_moves b = Ok l ->
  l = List.filter (open_column b) (range 0 (fst (size b)))
  /\ StronglySorted Z.lt l
  /\ forall col,
       col ∈ l <->
       0 <= col < fst (size b)
       /\ exists c, getitem (_board b) col = Ok c /\ len c < snd (size b).
Proof. apply available_moves_spec. Qed.

Lemma all_available_moves_exact_witness :
  [0; 1] = List.filter (open_column (snd (play [2; 2] (Game.init 3 2 4))))
             (range 0 (fst (size (snd (play [2; 2] (Game.init 3 2 4))))))
  /\ StronglySorted Z.lt [0; 1]
  /\ forall col,
       col ∈ [0; 1] <->
       0 <= col < fst (size (snd (play [2; 2] (Game.init 3 2 4))))
       /\ exists c,
            getitem (_board (snd (play [2; 2] (Game.init 3 2 4)))) col = Ok c
            /\ len c < snd (size (snd (play [2; 2] (Game.init 3 2 4)))).
Proof.
  apply (all_available_moves_exact (snd (play [2; 2] (Game.init 3 2 4)))).
  reflexivity.
Defined.

(** X10.  [all_available_moves] needs all the columns that [size] counts:
    it returns a list when the board has at least that many columns, and
    raises [IndexError] when it has fewer, as after the decoding of a string
    of too few tokens. *)
Theorem all_available_moves_columns b :
  (fst (size b) <= len (_board b) ->
   exists l, all_available_moves b = Ok l)
  /\ (len (_board b) < fst (size b) ->
      all_available_moves b = Raise IndexError).
Proof.
  split; intros Hlen.
  - apply available_moves_fold. intros i Hi. apply elem_of_range in Hi. lia.
  - apply (available_moves_raise b _ (len (_board b))).
    + apply elem_of_range. pose proof (len_nonneg (_board b)). lia.
    + apply getitem_beyond. lia.
Qed.

Lemma all_available_moves_columns_witness :
  all_available_moves (snd (set_position s!"1 2 1" (Game.init 7 6 4)))
  = Raise IndexError.
Proof.
  apply (proj2 (all_available_moves_columns
                  (snd (set_position s!"1 2 1" (Game.init 7 6 4))))).
  vm_compute. reflexivity.
Defined.

(** X11.  The legal moves are the moves that are accepted.  With runs of
    four or more, on a board that has its columns and none higher than the
    number of rows, a column is in the list of [all_available_moves]
    exactly when [make_move_at_column] on it returns [True]. *)
Theorem legal_moves_are_accepted b l col :
  sound b -> within_rows b ->
  all_available_moves b = Ok l ->
  (col ∈ l <-> exists b', make_move_at_column col b = (Ok true, b')).
Proof.
  intros [Hc Hr] Hrows Hl.
  apply available_moves_spec in Hl as (_ & _ & Hmem).
  rewrite Hmem. clear Hmem. unfold columns_match in Hc. split.
  - intros [Hcol (c & Hget & Hlow)]. rewrite make_move_unfold.
    destruct (Z.ltb_spec col 0); [lia|].
    destruct (Z.leb_spec (fst (size b)) col); [lia|]. simpl.
    rewrite Hget. destruct (Z.eqb_spec (len c) (snd (size b))); [lia|].
    rewrite index_inside by lia.
    destruct (check_result_returns (dropped (Z.to_nat col) b)) as [r ->];
      [|assumption|eauto].
    unfold columns_match, len. simpl. now rewrite length_alter.
  - intros [b' Hmove].
    apply make_move_true in Hmove as (c & k & r & Hcol & Hget & Hfull & _).
    split; [assumption|]. exists c. split; [assumption|].
    apply getitem_Ok in Hget as (k' & _ & Hlook).
    unfold within_rows in Hrows.
    pose proof (Forall_lookup_1 _ _ _ _ Hrows Hlook) as Hle. simpl in Hle. lia.
Qed.

Lemma legal_moves_are_accepted_witness :
  2 ∈ [0; 1; 2] <->
  exists b', make_move_at_column 2 (Game.init 3 2 4) = (Ok true, b').
Proof.
  apply (legal_moves_are_accepted (Game.init 3 2 4) [0; 1; 2] 2).
  - split; [reflexivity|]. simpl. lia.
  - unfold within_rows. simpl. repeat constructor; unfold len; simpl; lia.
  - reflexivity.
Defined.

(** *** What [check_result] finds *)

Lemma check_result_Ok_range b b' :
  check_result b = (Ok tt, b') -> 0 <= _result b' <= 3.
Proof.
  unfold check_result. destruct (all_full b); [intros [= <-]; simpl; lia|].
  destruct (first_found _ b) as [[r|]|e] eqn:Hf; intros [= <-]; simpl;
    [apply scan_finds_a_win in Hf|]; lia.
Qed.

(** X12.  With runs of four or more, on a board that has the columns its
    size says, [check_result] raises nothing, writes one of the four
    results and changes nothing else. *)
Theorem check_result_total b :
  sound b ->
  exists r, check_result b = (Ok tt, set_result r b) /\ 0 <= r <= 3.
Proof.
  intros [Hc Hr]. destruct (check_result_returns b Hc Hr) as [r Hres].
  exists r. split; [assumption|].
  now apply check_result_Ok_range in Hres.
Qed.

Lemma check_result_total_witness :
  exists r,
    check_result (snd (play [3; 3; 4] (Game.init 7 6 4)))
    = (Ok tt, set_result r (snd (play [3; 3; 4] (Game.init 7 6 4))))
    /\ 0 <= r <= 3.
Proof.
  apply (check_result_total (snd (play [3; 3; 4] (Game.init 7 6 4)))).
  split; [reflexivity|]. simpl. lia.
Defined.

Lemma chain_eq4_true a b c d :
  chain_eq4 a b c d = Ok true ->
  exists p, a = Ok p /\ b = Ok p /\ c = Ok p /\ d = Ok p.
Proof.
  unfold chain_eq4.
  destruct a as [x|]; simpl; [|discriminate].
  destruct b as [y|]; simpl; [|discriminate].
  destruct (eqb_spec x y) as [->|]; simpl; [|discriminate].
  destruct c as [z|]; simpl; [|discriminate].
  destruct (eqb_spec y z) as [->|]; simpl; [|discriminate].
  destruct d as [w|]; simpl; [|discriminate].
  destruct (eqb_spec z w) as [->|]; [|discriminate]. eauto.
Qed.

Lemma line4_true b i j di dj :
  line4 b i j di dj = Ok true ->
  exists p,
    cell b i j = Ok p /\ cell b (di i 1) (dj j 1) = Ok p
    /\ cell b (di i 2) (dj j 2) = Ok p /\ cell b (di i 3) (dj j 3) = Ok p.
Proof.
  unfold line4, and_then.
  destruct (taller b i j) as [[]|]; simpl; try discriminate.
  destruct (taller b (di i 1) (dj j 1)) as [[]|]; simpl; try discriminate.
  destruct (taller b (di i 2) (dj j 2)) as [[]|]; simpl; try discriminate.
  destruct (taller b (di i 3) (dj j 3)) as [[]|]; simpl; try discriminate.
  apply chain_eq4_true.
Qed.

Lemma run4_intro b p i j di dj :
  0 <= i -> 0 <= j -> 0 <= j + 3 * dj ->
  cell b i j = Ok p ->
  cell b (i + di) (j + dj) = Ok p ->
  cell b (i + 2 * di) (j + 2 * dj) = Ok p ->
  cell b (i + 3 * di) (j + 3 * dj) = Ok p ->
  run4 b p i j di dj.
Proof.
  intros Hi Hj Hj3 H0 H1 H2 H3. repeat split; try assumption.
  intros k Hk.
  assert (k = 0 \/ k = 1 \/ k = 2 \/ k = 3) as [-> | [-> | [-> | ->]]] by lia.
  - now replace (i + 0 * di) with i by lia;
      replace (j + 0 * dj) with j by lia.
  - now replace (i + 1 * di) with (i + di) by lia;
      replace (j + 1 * dj) with (j + dj) by lia.
  - assumption.
  - assumption.
Qed.

(** A line reported by one of the three two-dimensional scans. *)
Lemma line_report_run b i j dj step w :
  0 <= i -> 0 <= j -> 0 <= j + 3 * step ->
  (forall k, dj j k = j + k * step) ->
  report b (line4 b i j Z.add dj) i j = Ok (Some w) ->
  exists p, w = win_of p /\ run4 b p i j 1 step.
Proof.
  intros Hi Hj Hj3 Hdj Hrep.
  apply report_Some in Hrep as (Hline & p & Hp & ->).
  apply line4_true in Hline as (q & H0 & H1 & H2 & H3).
  assert (q = p) as -> by congruence.
  exists p. split; [reflexivity|].
  rewrite !Hdj in *.
  apply run4_intro; try assumption.
  now replace (j + step) with (j + 1 * step) by lia.
Qed.

(** X13.  No win without a line.  With runs of four or more, whenever
    [check_result] returns and has written the win of a player, four pieces
    of that player lie in a line on the board: rising, falling, in a row or
    in a column. *)
Theorem reported_win_has_a_line b b' p :
  4 <= connect_num b ->
  check_result b = (Ok tt, b') ->
  _result b' = win_of p ->
  exists i j di dj,
    (di, dj) ∈ [(1, 1); (1, -1); (1, 0); (0, 1)]
    /\ run4 b p i j di dj.
Proof.
  intros Hrun Hres Hwin. unfold check_result in Hres.
  destruct (all_full b); [injection Hres as <-; now destruct p|].
  destruct (first_found _ b) as [[r|]|e] eqn:Hf;
    [|injection Hres as <-; now destruct p|discriminate].
  injection Hres as <-. simpl in Hwin. subst r.
  apply first_found_Some in Hf as (f & Hin & Hf).
  assert (Hdir : forall step dj i j,
    0 <= i -> 0 <= j -> 0 <= j + 3 * step ->
    (forall k, dj j k = j + k * step) ->
    report b (line4 b i j Z.add dj) i j = Ok (Some (win_of p)) ->
    run4 b p i j 1 step).
  { intros step dj i j Hi Hj Hj3 Hdj Hrep.
    destruct (line_report_run b i j dj step _ Hi Hj Hj3 Hdj Hrep)
      as (q & Hq & Hline).
    now destruct p, q. }
  repeat (apply elem_of_cons in Hin as [->|Hin]);
    [| | | |now apply elem_of_nil in Hin];
    apply for_return_Some in Hf as (i & Hi & Hf);
    apply elem_of_range in Hi;
    destruct (getitem (_board b) i) as [c|] eqn:Hc; simpl in Hf;
    try discriminate.
  - apply for_return_Some in Hf as (j & Hj & Hf). apply elem_of_range in Hj.
    exists i, j, 1, 1. split; [apply list_elem_of_In; simpl; auto 6|].
    apply (Hdir 1 Z.add); [lia..| |assumption]. intros; lia.
  - apply for_return_Some in Hf as (j & Hj & Hf). apply elem_of_range in Hj.
    exists i, j, 1, (-1). split; [apply list_elem_of_In; simpl; auto 6|].
    apply (Hdir (-1) Z.sub); [lia..| |assumption]. intros; lia.
  - apply for_return_Some in Hf as (j & Hj & Hf). apply elem_of_range in Hj.
    exists i, j, 1, 0. split; [apply list_elem_of_In; simpl; auto 6|].
    apply (Hdir 0 (fun j _ => j)); [lia..| |assumption]. intros; lia.
  - destruct (len c <? connect_num b); [discriminate|].
    apply for_return_Some in Hf as (j & Hj & Hf). apply elem_of_range in Hj.
    apply report_Some in Hf as (Hline & q & Hq & Hw).
    assert (q = p) as -> by now destruct p, q.
    apply chain_eq4_true in Hline as (q & H0 & H1 & H2 & H3).
    assert (q = p) as -> by congruence.
    exists i, j, 0, 1. split; [apply list_elem_of_In; simpl; auto 6|].
    apply run4_intro; try lia; try assumption.
    + now replace (i + 0) with i by lia.
    + now replace (i + 2 * 0) with i by lia;
        replace (j + 2 * 1) with (j + 2) by lia.
    + now replace (i + 3 * 0) with i by lia;
        replace (j + 3 * 1) with (j + 3) by lia.
Qed.

Lemma reported_win_has_a_line_witness :
  exists i j di dj,
    (di, dj) ∈ [(1, 1); (1, -1); (1, 0); (0, 1)]
    /\ run4 (dropped 0 (snd (play [0; 1; 0; 1; 0; 1] (Game.init 7 6 4))))
            false i j di dj.
Proof.
  apply (reported_win_has_a_line
           (dropped 0 (snd (play [0; 1; 0; 1; 0; 1] (Game.init 7 6 4))))
           (snd (play [0; 1; 0; 1; 0; 1; 0] (Game.init 7 6 4))) false).
  - vm_compute. discriminate.
  - vm_compute. reflexivity.
  - vm_compute. reflexivity.
Defined.

Lemma for_return_hit {X R} (l : list X) (body : X -> outcome (option R))
  x0 v :
  (forall x, x ∈ l -> exists r, body x = Ok r) ->
  x0 ∈ l -> body x0 = Ok (Some v) ->
  exists v', for_return l body = Ok (Some v').
Proof.
  induction l as [|x l IH]; intros Hok Hin Hhit;
    [now apply elem_of_nil in Hin|].
  simpl. destruct (Hok x) as [r Hr]; [left|]. rewrite Hr. simpl.
  destruct r as [v'|]; [eauto|].
  apply elem_of_cons in Hin as [->|Hin]; [congruence|].
  apply IH; [|assumption..]. intros y Hy. apply Hok. now right.
Qed.

Lemma for_return_None {X R} (l : list X) (body : X -> outcome (option R)) :
  (forall x, x ∈ l -> body x = Ok None) -> for_return l body = Ok None.
Proof.
  induction l as [|x l IH]; intros Hnone; [reflexivity|].
  simpl. rewrite Hnone by left. simpl. apply IH.
  intros y Hy. apply Hnone. now right.
Qed.

Lemma first_found_hit scans b f0 v :
  (forall f, f ∈ scans -> exists r, f b = Ok r) ->
  f0 ∈ scans -> f0 b = Ok (Some v) ->
  exists v', first_found scans b = Ok (Some v').
Proof.
  induction scans as [|f fs IH]; intros Hok Hin Hhit;
    [now apply elem_of_nil in Hin|].
  simpl. destruct (Hok f) as [r Hr]; [left|]. rewrite Hr. simpl.
  destruct r as [v'|]; [eauto|].
  apply elem_of_cons in Hin as [->|Hin]; [congruence|].
  apply IH; [|assumption..]. intros g Hg. apply Hok. now right.
Qed.

Lemma cell_taller b i j p :
  0 <= j -> cell b i j = Ok p -> taller b i j = Ok true.
Proof.
  unfold cell, taller. intros Hj.
  destruct (getitem (_board b) i) as [c|]; simpl; [|discriminate].
  intros Hp. apply getitem_Ok in Hp as (k & Hk & _).
  apply index_Ok in Hk as [Hlt [[_ ->]|[? _]]]; [|lia].
  f_equal. apply Z.ltb_lt. unfold len. lia.
Qed.

Lemma cell_column b i j p :
  0 <= i -> cell b i j = Ok p ->
  i < len (_board b) /\ exists c, getitem (_board b) i = Ok c /\ j < len c.
Proof.
  unfold cell. intros Hi.
  destruct (getitem (_board b) i) as [c|] eqn:Hc; simpl; [|discriminate].
  intros Hp. split.
  - apply getitem_Ok in Hc as (k & Hk & _).
    apply index_Ok in Hk as [Hlt [[_ ->]|[? _]]]; [|lia]. unfold len. lia.
  - exists c. split; [reflexivity|].
    apply getitem_Ok in Hp as (k & Hk & _).
    apply index_Ok in Hk as [Hlt Hcase]. unfold len in *. lia.
Qed.

Lemma run4_cells b p i j di dj :
  run4 b p i j di dj ->
  cell b i j = Ok p /\ cell b (i + di) (j + dj) = Ok p
  /\ cell b (i + 2 * di) (j + 2 * dj) = Ok p
  /\ cell b (i + 3 * di) (j + 3 * dj) = Ok p.
Proof.
  intros (_ & _ & _ & Hrun).
  pose proof (Hrun 0 ltac:(lia)) as H0.
  pose proof (Hrun 1 ltac:(lia)) as H1.
  replace (i + 0 * di) with i in H0 by lia.
  replace (j + 0 * dj) with j in H0 by lia.
  replace (i + 1 * di) with (i + di) in H1 by lia.
  replace (j + 1 * dj) with (j + dj) in H1 by lia.
  repeat split; try assumption; apply Hrun; lia.
Qed.

Section Detection.

Variable b : C4Board.
Hypothesis Hcols : columns_match b.
Hypothesis Hrun : connect_num b = 4.

(** A line over the columns [i] to [i+3] that holds four equal pieces is
    reported by the scan whose rows include its first row. *)
Lemma scan_line_hit (js : list bool -> list Z) dj step p i j :
  (forall c j, j ∈ js c ->
               0 <= j /\ 0 <= dj j 1 /\ 0 <= dj j 2 /\ 0 <= dj j 3) ->
  (forall k, dj j k = j + k * step) ->
  run4 b p i j 1 step ->
  (forall c, getitem (_board b) i = Ok c -> j ∈ js c) ->
  exists v,
    for_return (range 0 (fst (size b) - connect_num b + 1)) (fun i =>
      let! c := getitem (_board b) i in
      for_return (js c) (fun j => report b (line4 b i j Z.add dj) i j))
    = Ok (Some v).
Proof.
  intros Hjs Hdj Hline Hrow.
  pose proof Hline as (Hi & Hj & Hj3 & _).
  apply run4_cells in Hline as (H0 & H1 & H2 & H3).
  replace (i + 1) with (i + 1) in H1 by lia.
  replace (i + 2 * 1) with (i + 2) in H2 by lia.
  replace (i + 3 * 1) with (i + 3) in H3 by lia.
  replace (j + step) with (j + 1 * step) in H1 by lia.
  rewrite <- !Hdj in H1, H2, H3.
  destruct (cell_column b (i + 3) _ p ltac:(lia) H3) as (Hi3 & _).
  destruct (cell_column b i j p Hi H0) as (_ & c & Hc & Hjc).
  unfold columns_match in Hcols.
  assert (Hbody : forall i' j' c', i' ∈ range 0 (fst (size b) - connect_num b + 1) ->
            j' ∈ js c' ->
            exists r, report b (line4 b i' j' Z.add dj) i' j' = Ok r).
  { intros i' j' c' Hi' Hj'. apply elem_of_range in Hi'.
    destruct (Hjs c' j' Hj') as (? & ? & ? & ?).
    destruct (line4_ok b i' j' dj) as (t & Ht & Hcell); try lia.
    eapply report_ok; eauto. }
  assert (Hrep : report b (line4 b i j Z.add dj) i j = Ok (Some (win_of p))).
  { unfold report, line4.
    rewrite (cell_taller b i j p Hj H0).
    rewrite (cell_taller b (i + 1) (dj j 1) p)
      by (assumption || (rewrite ?Hdj; lia)).
    rewrite (cell_taller b (i + 2) (dj j 2) p)
      by (assumption || (rewrite ?Hdj; lia)).
    rewrite (cell_taller b (i + 3) (dj j 3) p)
      by (assumption || (rewrite ?Hdj; lia)).
    rewrite H0, H1, H2, H3. unfold and_then, chain_eq4. simpl.
    rewrite eqb_reflx. simpl. unfold winner_at. rewrite H0. simpl.
    now destruct p. }
  destruct (for_return_hit (js c)
              (fun j => report b (line4 b i j Z.add dj) i j) j (win_of p))
    as [v' Hv'].
  { intros j' Hj'. apply (Hbody i j' c); [apply elem_of_range; lia|assumption]. }
  { now apply Hrow. }
  { assumption. }
  apply (for_return_hit _ _ i v').
  - intros i' Hi'. pose proof Hi' as Hr. apply elem_of_range in Hr.
    destruct (getitem_total (_board b) i') as [c' ->]; [lia|]. simpl.
    apply for_return_ok. intros j' Hj'. now apply (Hbody i' j' c').
  - apply elem_of_range. lia.
  - rewrite Hc. simpl. exact Hv'.
Qed.

Lemma column_piece_ok col c piece :
  getitem (_board b) col = Ok c ->
  piece ∈ range 0 (len c - connect_num b + 1) ->
  exists r,
    report b (chain_eq4 (cell b col piece) (cell b col (piece + 1))
                (cell b col (piece + 2)) (cell b col (piece + 3)))
           col piece = Ok r.
Proof.
  intros Hc Hp. apply elem_of_range in Hp.
  unfold cell. rewrite Hc. simpl.
  destruct (getitem_total c piece) as [p0 E0]; [lia|].
  destruct (getitem_total c (piece + 1)) as [p1 E1]; [lia|].
  destruct (getitem_total c (piece + 2)) as [p2 E2]; [lia|].
  destruct (getitem_total c (piece + 3)) as [p3 E3]; [lia|].
  rewrite E0, E1, E2, E3.
  destruct (chain_eq4_ok p0 p1 p2 p3) as [t Ht].
  eapply report_ok; [exact Ht|].
  intros _. exists p0. unfold cell. now rewrite Hc.
Qed.

Lemma scan_column_hit p i j :
  run4 b p i j 0 1 -> exists v, scan_column b = Ok (Some v).
Proof.
  intros Hline. pose proof Hline as (Hi & Hj & _ & _).
  apply run4_cells in Hline as (H0 & H1 & H2 & H3).
  replace (i + 0) with i in H1 by lia.
  replace (i + 2 * 0) with i in H2 by lia.
  replace (i + 3 * 0) with i in H3 by lia.
  replace (j + 2 * 1) with (j + 2) in H2 by lia.
  replace (j + 3 * 1) with (j + 3) in H3 by lia.
  destruct (cell_column b i (j + 3) p Hi H3) as (Hlt & c & Hc & Hjc).
  assert (Hin : exists v',
    for_return (range 0 (len c - connect_num b + 1)) (fun piece =>
      report b (chain_eq4 (cell b i piece) (cell b i (piece + 1))
                  (cell b i (piece + 2)) (cell b i (piece + 3)))
             i piece) = Ok (Some v')).
  { apply (for_return_hit _ _ j (win_of p)).
    - intros piece Hp. now apply (column_piece_ok i c).
    - apply elem_of_range. lia.
    - rewrite H0, H1, H2, H3. unfold report, chain_eq4. simpl.
      rewrite eqb_reflx. simpl. unfold winner_at. rewrite H0. simpl.
      now destruct p. }
  destruct Hin as [v' Hv'].
  apply (for_return_hit _ _ i v').
  - intros col Hcol. apply elem_of_range in Hcol.
    destruct (getitem_total (_board b) col) as [c' Hc']; [lia|].
    rewrite Hc'. simpl.
    destruct (Z.ltb_spec (len c') (connect_num b)); [eauto|].
    apply for_return_ok. intros piece Hp. now apply (column_piece_ok col c').
  - apply elem_of_range. lia.
  - rewrite Hc. simpl.
    destruct (Z.ltb_spec (len c) (connect_num b)); [lia|]. exact Hv'.
Qed.

End Detection.

(** X14.  Lines in a row, in a column and falling are found.  With runs of
    4 on a board that has its columns and is not full, four equal pieces in
    a row, in a column or on a falling diagonal make [check_result] write a
    win, 2 or 3.  (It is the win of the first line that the scans meet.) *)
Theorem straight_lines_detected b p i j di dj :
  columns_match b -> connect_num b = 4 -> all_full b = false ->
  (di, dj) ∈ [(1, -1); (1, 0); (0, 1)] ->
  run4 b p i j di dj ->
  exists r, check_result b = (Ok tt, set_result r b) /\ (r = 2 \/ r = 3).
Proof.
  intros Hc Hr Hfull Hdir Hline.
  assert (Hr4 : 4 <= connect_num b) by lia.
  assert (Hhit : exists f v,
    f ∈ [scan_rising; scan_falling; scan_row; scan_column]
    /\ f b = Ok (Some v)).
  { pose proof Hline as (Hi & Hj & Hj3 & _).
    repeat (apply elem_of_cons in Hdir as [Hd|Hdir]);
      [injection Hd as -> ->..|now apply elem_of_nil in Hdir].
    - destruct (scan_line_hit b Hc Hr
        (fun c => range (connect_num b - 1) (len c)) Z.sub (-1) p i j)
        as [v Hv]; [| |assumption| |].
      + intros c j' Hj'. apply elem_of_range in Hj'. lia.
      + intros; lia.
      + intros c Hgc. apply elem_of_range.
        destruct (cell_column b i j p Hi
                    (proj1 (run4_cells _ _ _ _ _ _ Hline)))
          as (_ & c' & Hc' & Hjc).
        assert (c' = c) as -> by congruence. lia.
      + exists scan_falling, v. split; [|exact Hv].
        apply list_elem_of_In; simpl; auto.
    - destruct (scan_line_hit b Hc Hr
        (fun c => range 0 (len c)) (fun j _ => j) 0 p i j)
        as [v Hv]; [| |assumption| |].
      + intros c j' Hj'. apply elem_of_range in Hj'. lia.
      + intros; lia.
      + intros c Hgc. apply elem_of_range.
        destruct (cell_column b i j p Hi
                    (proj1 (run4_cells _ _ _ _ _ _ Hline)))
          as (_ & c' & Hc' & Hjc).
        assert (c' = c) as -> by congruence. lia.
      + exists scan_row, v. split; [|exact Hv].
        apply list_elem_of_In; simpl; auto.
    - destruct (scan_column_hit b Hr p i j Hline) as [v Hv].
      exists scan_column, v. split; [|exact Hv].
      apply list_elem_of_In; simpl; auto 6. }
  destruct Hhit as (f & v & Hf & Hv).
  destruct (first_found_hit [scan_rising; scan_falling; scan_row; scan_column]
              b f v) as [v' Hv']; [|assumption..|].
  { intros g Hg. repeat (apply elem_of_cons in Hg as [->|Hg]);
      [| | | |now apply elem_of_nil in Hg].
    - now apply scan_rising_ok.
    - now apply scan_falling_ok.
    - now apply scan_row_ok.
    - now apply scan_column_ok. }
  exists v'. unfold check_result. rewrite Hfull, Hv'.
  split; [reflexivity|]. now apply scan_finds_a_win in Hv'.
Qed.

Lemma straight_lines_detected_witness :
  exists r,
    check_result (dropped 3 (snd (play [0; 0; 1; 1; 2; 2] (Game.init 7 6 4))))
    = (Ok tt,
       set_result r
         (dropped 3 (snd (play [0; 0; 1; 1; 2; 2] (Game.init 7 6 4)))))
    /\ (r = 2 \/ r = 3).
Proof.
  apply (straight_lines_detected
           (dropped 3 (snd (play [0; 0; 1; 1; 2; 2] (Game.init 7 6 4))))
           false 0 0 1 0).
  - reflexivity.
  - reflexivity.
  - reflexivity.
  - apply list_elem_of_In; simpl; auto.
  - apply run4_intro; try lia; reflexivity.
Defined.

(** X15.  No win when a run does not fit.  If runs are longer than the
    board is wide and than every column is high, [check_result] raises
    nothing whatever the run length, and the result is a draw when all
    columns are full and "no result yet" otherwise. *)
Theorem no_win_when_run_too_long b :
  fst (size b) < connect_num b ->
  Forall (fun c => len c < connect_num b) (_board b) ->
  check_result b = (Ok tt, set_result (if all_full b then 1 else 0) b).
Proof.
  intros Hwide Hhigh. unfold check_result.
  destruct (all_full b); [reflexivity|].
  assert (Hempty : range 0 (fst (size b) - connect_num b + 1) = []).
  { unfold range. apply seqZ_nil. lia. }
  unfold first_found, scan_rising, scan_falling, scan_row.
  rewrite Hempty. simpl.
  assert (scan_column b = Ok None) as ->; [|reflexivity].
  apply for_return_None. intros col Hcol. apply elem_of_range in Hcol.
  destruct (getitem_total (_board b) col) as [c Hc]; [lia|].
  rewrite Hc. simpl.
  apply getitem_Ok in Hc as (k & _ & Hk).
  pose proof (Forall_lookup_1 _ _ _ _ Hhigh Hk) as Hlow. simpl in Hlow.
  now rewrite (proj2 (Z.ltb_lt _ _) Hlow).
Qed.

Lemma no_win_when_run_too_long_witness :
  check_result (snd (play [0; 1; 0] (Game.init 2 2 3)))
  = (Ok tt,
     set_result (if all_full (snd (play [0; 1; 0] (Game.init 2 2 3)))
                 then 1 else 0)
                (snd (play [0; 1; 0] (Game.init 2 2 3)))).
Proof.
  apply (no_win_when_run_too_long (snd (play [0; 1; 0] (Game.init 2 2 3)))).
  - vm_compute. reflexivity.
  - repeat constructor.
Defined.

(** ** Further properties of the engine *)

(** *** The transposition table through a search *)

Section TableInvariant.

(** A property of the table that storing a value keeps. *)
Variable P : gmap str Z -> Prop.
Hypothesis P_insert : forall t k v, P t -> P (<[k:=v]> t).

Lemma table_has_on_board {A} (m : M C4Board A) :
  keeps (table_has P) (fun _ => True) (on_board m).
Proof.
  intros [e b] He. unfold on_board. simpl. now destruct (m b).
Qed.

Lemma negamax_loop_table deeper :
  (forall a b, keeps (table_has P) (fun _ => True) (deeper a b)) ->
  forall moves alpha beta best_value,
    keeps (table_has P) (fun _ => True)
          (negamax_loop deeper moves alpha beta best_value).
Proof.
  intros Hd moves. induction moves as [|move rest IH];
    intros alpha beta best; simpl.
  - now apply keeps_ret.
  - eapply keeps_bind; [apply keeps_eval|]. intros currfen _.
    eapply keeps_bind; [apply table_has_on_board|]. intros _ _.
    eapply keeps_bind; [apply Hd|]. intros v _.
    eapply keeps_bind; [apply table_has_on_board|]. intros _ _.
    destruct (Z.max alpha (- v) >=? beta); [now apply keeps_ret|apply IH].
Qed.

Lemma negamax_at_table depth :
  forall alpha beta,
    keeps (table_has P) (fun _ => True) (negamax_at depth alpha beta).
Proof.
  induction depth as [|d IH]; intros alpha beta; simpl.
  - eapply keeps_bind; [apply keeps_get|]. intros w _. now apply keeps_ret.
  - unfold negamax_body.
    eapply keeps_bind; [apply keeps_get|]. intros w Hw.
    destruct (get_result (snd w) >=? 2); [now apply keeps_ret|].
    destruct (get_result (snd w) =? 1); [now apply keeps_ret|].
    destruct (ttable (fst w) !! get_fen (snd w)) as [v|].
    + eapply keeps_bind with (Q1 := fun _ => True).
      * intros [e b] He. now split.
      * intros _ _. now apply keeps_ret.
    + eapply keeps_bind; [apply keeps_eval|]. intros moves _.
      eapply keeps_bind; [now apply negamax_loop_table|]. intros best _.
      eapply keeps_bind; [apply keeps_get|]. intros w' _.
      eapply keeps_bind with (Q1 := fun _ => True).
      * intros [e b] He. split; [|done]. now apply P_insert.
      * intros _ _. now apply keeps_ret.
Qed.

End TableInvariant.

(** [bestmoves] keeps what its pieces keep. *)
Lemma bestmoves_keeps (J : world -> Prop) :
  (forall A (m : M C4Board A), keeps J (fun _ => True) (on_board m)) ->
  (forall v, keeps J (fun _ => True) (on_engine (set_lookups v))) ->
  (forall v, keeps J (fun _ => True) (on_engine (set__lookups v))) ->
  (forall d a b, keeps J (fun _ => True) (negamax_at d a b)) ->
  keeps J (fun _ => True) bestmoves.
Proof.
  intros Hboard Hl1 Hl2 Hneg.
  assert (Hloop : forall currfen moves evals,
             keeps J (fun _ => True) (bestmoves_loop currfen moves evals)).
  { intros currfen moves. induction moves as [|col rest IH]; intros evals;
      simpl; [now apply keeps_ret|].
    eapply keeps_bind; [apply Hboard|]. intros _ _.
    eapply keeps_bind with (Q1 := fun _ => True).
    { intros w Hw. unfold negamax. now apply Hneg. }
    intros v _.
    eapply keeps_bind; [apply Hboard|]. intros _ _. apply IH. }
  unfold bestmoves.
  eapply keeps_bind; [apply keeps_eval|]. intros currfen _.
  eapply keeps_bind; [apply Hl1|]. intros _ _.
  eapply keeps_bind; [apply keeps_eval|]. intros moves _.
  eapply keeps_bind; [apply Hloop|]. intros evals _.
  eapply keeps_bind; [apply keeps_eval|]. intros max_eval _.
  eapply keeps_bind; [apply Hl2|]. intros _ _. now apply keeps_ret.
Qed.

(** X16.  The table only grows.  A key that is in the transposition table
    before a call of [negamax] or of [bestmoves] is in it after the call,
    whether the call returns or raises. *)
Theorem ttable_only_grows e b alpha beta ply k :
  is_Some (ttable e !! k) ->
  is_Some (ttable (fst (snd (negamax alpha beta ply (e, b)))) !! k)
  /\ is_Some (ttable (fst (snd (bestmoves (e, b)))) !! k).
Proof.
  intros Hk.
  pose (P := fun t : gmap str Z => is_Some (t !! k)).
  assert (P_insert : forall t k' v, P t -> P (<[k':=v]> t)).
  { intros t k' v Ht. unfold P. rewrite lookup_insert. now case_decide. }
  split.
  - unfold negamax.
    now apply (negamax_at_table P P_insert _ alpha beta (e, b)).
  - apply (bestmoves_keeps (fun w => P (ttable (fst w)))); [| | | |exact Hk].
    + intros A m. apply (table_has_on_board P).
    + intros v [e' b'] He. now split.
    + intros v [e' b'] He. now split.
    + intros d a b'. now apply negamax_at_table.
Qed.

Lemma ttable_only_grows_witness :
  is_Some (ttable (fst (snd (negamax (-100) 100 0
             (set_ttable {[ s!"x" := 7 ]} Engine.init, Game.init 1 2 4))))
           !! s!"x")
  /\ is_Some (ttable (fst (snd (bestmoves
             (set_ttable {[ s!"x" := 7 ]} Engine.init, Game.init 1 2 4))))
           !! s!"x").
Proof.
  apply (ttable_only_grows (set_ttable {[ s!"x" := 7 ]} Engine.init)
           (Game.init 1 2 4) (-100) 100 0 s!"x").
  exists 7. reflexivity.
Defined.

(** X17.  [bestmoves] keeps the table a table of scores: if every value in
    the transposition table is between -100 and 100 before the call, so is
    every value after it, on any board and whether the call returns or
    raises. *)
Theorem bestmoves_keeps_scores e b :
  ttable_bounded e -> ttable_bounded (fst (snd (bestmoves (e, b)))).
Proof.
  intros He.
  apply (bestmoves_keeps table_ok); [| | | |exact He].
  - intros A m. apply keeps_on_board.
  - intros v [e' b'] He'. now split.
  - intros v [e' b'] He'. now split.
  - intros d a b'. eapply keeps_weaken; [|apply negamax_at_keeps]. done.
Qed.

Lemma bestmoves_keeps_scores_witness :
  ttable_bounded Engine.init
  /\ ttable_bounded (fst (snd (bestmoves (Engine.init, Game.init 2 2 4)))).
Proof.
  split; [apply map_Forall_empty|].
  apply (bestmoves_keeps_scores Engine.init (Game.init 2 2 4)).
  apply map_Forall_empty.
Defined.

(** *** What [bestmoves] recommends *)

Lemma dict_set_fresh k v d :
  k ∉ map fst d -> dict_set k v d = d ++ [(k, v)].
Proof.
  induction d as [|[k' v'] d IH]; intros Hk; [reflexivity|]. simpl in *.
  apply not_elem_of_cons in Hk as [Hne Hk].
  destruct (Z.eqb_spec k' k); [congruence|]. now rewrite IH.
Qed.

Lemma dict_get_NoDup k v d :
  NoDup (map fst d) -> (k, v) ∈ d -> dict_get k d = Some v.
Proof.
  induction d as [|[k' v'] d IH]; intros Hnd Hin;
    [now apply elem_of_nil in Hin|].
  simpl in *. apply NoDup_cons in Hnd as [Hk' Hnd].
  apply elem_of_cons in Hin as [[= -> ->]|Hin].
  - now rewrite Z.eqb_refl.
  - destruct (Z.eqb_spec k' k) as [->|_]; [|now apply IH].
    exfalso. apply Hk'. apply list_elem_of_fmap. now exists (k, v).
Qed.

Lemma max_of_attained (l : list Z) m : max_of l = Ok m -> m ∈ l.
Proof.
  destruct l as [|x xs]; [discriminate|]. simpl. intros [= <-].
  revert x. induction xs as [|y xs IH]; intros x; simpl; [left|].
  destruct (Z.max_spec x y) as [[_ ->]|[_ ->]].
  - right. apply IH.
  - specialize (IH x). apply elem_of_cons in IH as [->|IH];
      [left|right; now right].
Qed.

(** The keys of [evals] after the loop of [bestmoves]: the columns tried,
    in their order. *)
Lemma bestmoves_loop_keys currfen moves :
  forall evals w evals' w',
    bestmoves_loop currfen moves evals w = (Ok evals', w') ->
    NoDup (map fst evals ++ moves) ->
    map fst evals' = map fst evals ++ moves.
Proof.
  induction moves as [|col rest IH]; intros evals w evals' w' Hrun Hnd.
  - injection Hrun as <- <-. now rewrite app_nil_r.
  - simpl in Hrun. unfold bind in Hrun.
    destruct (on_board (make_move_at_column col) w) as [[ok|] w1];
      [|discriminate].
    destruct (negamax (-100) 100 0 w1) as [[v|] w2]; [|discriminate].
    destruct (on_board (set_position currfen) w2) as [[[]|] w3];
      [|discriminate].
    assert (Hfresh : col ∉ map fst evals).
    { apply NoDup_app in Hnd as (_ & Hdis & _). intros Hin.
      apply (Hdis col Hin). left. }
    rewrite dict_set_fresh in Hrun by assumption.
    apply IH in Hrun.
    + rewrite Hrun, map_app. simpl. now rewrite <- app_assoc.
    + rewrite map_app. simpl. now rewrite <- app_assoc.
Qed.

(** X18.  What [bestmoves] returns, when it returns: a list, never empty,
    of legal moves of the board it was called on, in ascending order. *)
Theorem bestmoves_recommends_legal e b l w' :
  bestmoves (e, b) = (Ok l, w') ->
  exists moves,
    all_available_moves b = Ok moves
    /\ l <> [] /\ StronglySorted Z.lt l
    /\ forall col, col ∈ l -> col ∈ moves.
Proof.
  unfold bestmoves, bind, eval, on_engine, modify. simpl.
  destruct (all_available_moves b) as [moves|] eqn:Hmoves; [|discriminate].
  destruct (bestmoves_loop _ moves [] _) as [[evals|] w1] eqn:Hloop;
    [|discriminate].
  destruct (max_of (map snd evals)) as [m|] eqn:Hmax; [|discriminate].
  intros [= <- _]. exists moves. split; [reflexivity|].
  apply available_moves_spec in Hmoves as (_ & Hsorted & _).
  assert (Hnd : NoDup moves).
  { clear -Hsorted. induction Hsorted as [|x l _ IH Hx]; constructor;
      [|assumption].
    intros Hin. apply (Forall_forall (Z.lt x) l) in Hin; [lia|assumption]. }
  apply bestmoves_loop_keys in Hloop; [|assumption]. simpl in Hloop.
  rewrite Hloop. split; [|split].
  - apply max_of_attained in Hmax.
    apply list_elem_of_fmap in Hmax as ([k v] & -> & Hkv). simpl.
    assert (Hin : k ∈ List.filter
              (fun i => match dict_get i evals with
                        | Some v0 => v0 =? v
                        | None => false
                        end) moves).
    { apply list_elem_of_In, filter_In. split.
      - apply list_elem_of_In. rewrite <- Hloop.
        apply list_elem_of_fmap. now exists (k, v).
      - rewrite (dict_get_NoDup k v); [apply Z.eqb_refl| |assumption].
        now rewrite Hloop. }
    intros Hnil. rewrite Hnil in Hin. now apply elem_of_nil in Hin.
  - now apply filter_sorted.
  - intros col Hcol. apply list_elem_of_In, filter_In in Hcol as [Hcol _].
    now apply list_elem_of_In.
Qed.

Lemma bestmoves_recommends_legal_witness :
  exists moves,
    all_available_moves (Game.init 2 2 4) = Ok moves
    /\ [0; 1] <> [] /\ StronglySorted Z.lt [0; 1]
    /\ forall col, col ∈ [0; 1] -> col ∈ moves.
Proof.
  apply (bestmoves_recommends_legal Engine.init (Game.init 2 2 4) [0; 1]
           (snd (bestmoves (Engine.init, Game.init 2 2 4)))).
  vm_compute. reflexivity.
Defined.

(** *** Witnesses of the searches that return *)

Lemma negamax_returns_witness :
  exists v e' b',
    negamax (-100) 100 0 (Engine.init, Game.init 4 4 4) = (Ok v, (e', b'))
    /\ score v /\ same_position (Game.init 4 4 4) b' /\ ttable_bounded e'.
Proof.
  apply (negamax_returns (-100) 100 0 Engine.init (Game.init 4 4 4)).
  - split; [reflexivity|]. simpl. lia.
  - apply map_Forall_empty.
  - simpl. lia.
Defined.

Lemma bestmoves_restores_position_witness :
  exists l e' b',
    bestmoves (Engine.init, Game.init 4 4 4) = (Ok l, (e', b'))
    /\ same_position (Game.init 4 4 4) b' /\ ttable_bounded e'.
Proof.
  apply (bestmoves_restores_position Engine.init (Game.init 4 4 4)
           [0; 1; 2; 3]).
  - split; [reflexivity|]. simpl. lia.
  - apply map_Forall_empty.
  - simpl. lia.
  - reflexivity.
  - discriminate.
Defined.

Lemma make_move_with_long_runs_witness :
  make_move_at_column 7 (Game.init 7 6 4) = (Ok false, Game.init 7 6 4).
Proof.
  assert (Hs : sound (Game.init 7 6 4)).
  { split; [reflexivity|]. change (4 <= 4). lia. }
  apply (proj1 (make_move_with_long_runs (Game.init 7 6 4) 7 Hs)).
  right. change (7 <= 7). lia.
Defined.

(** ** The picture of the board *)

Lemma for_acc_ok {X S} (l : list X) (body : X -> S -> outcome S) s :
  (forall x s, x ∈ l -> exists s', body x s = Ok s') ->
  exists s', for_acc l body s = Ok s'.
Proof.
  revert s. induction l as [|x l IH]; intros s Hbody; simpl; [eauto|].
  destruct (Hbody x s) as [s1 ->]; [left|]. simpl.
  apply IH. intros y s' Hy. apply Hbody. now right.
Qed.

Lemma for_acc_raise {X S} (l1 l2 : list X) x
  (body : X -> S -> outcome S) e s :
  (forall y s, y ∈ l1 -> exists s', body y s = Ok s') ->
  (forall s, body x s = Raise e) ->
  for_acc (l1 ++ x :: l2) body s = Raise e.
Proof.
  revert s. induction l1 as [|y l1 IH]; intros s Hok Hraise; simpl.
  - now rewrite Hraise.
  - destruct (Hok y s) as [s1 ->]; [left|]. simpl.
    apply IH; [|assumption]. intros z s' Hz. apply Hok. now right.
Qed.

Lemma to_string_cell_ok b row col string :
  0 <= row -> 0 <= col < len (_board b) ->
  exists s', to_string_cell b row col string = Ok s'.
Proof.
  intros Hrow Hcol. unfold to_string_cell, cell.
  destruct (getitem_total (_board b) col) as [c ->]; [assumption|]. simpl.
  destruct (Z.leb_spec (len c) row); [eauto|].
  destruct (getitem_total c row) as [p ->]; [lia|]. simpl.
  destruct (eqb p false); eauto.
Qed.

Lemma elem_of_range_desc (start stop x : Z) :
  x ∈ range_desc start stop <-> stop < x <= start.
Proof.
  unfold range_desc.
  rewrite list_elem_of_In, <- in_rev, <- list_elem_of_In, elem_of_seqZ. lia.
Qed.

(** X19.  [to_string] needs all the columns that [size] counts.  It returns
    a picture when the board has at least that many columns; when it has
    fewer and the board has a row at all, it raises [IndexError], as
    printing does after the decoding of a string of too few tokens. *)
Theorem to_string_columns b :
  (fst (size b) <= len (_board b) -> exists s, to_string b = Ok s)
  /\ (len (_board b) < fst (size b) -> 1 <= snd (size b) ->
      to_string b = Raise IndexError).
Proof.
  split.
  - intros Hlen. unfold to_string.
    destruct (for_acc_ok (range_desc (snd (size b) - 1) (-1))
                (to_string_row b)
                (if eqb (_turn b) false
                 then [] ++ [ESC] ++ s!"[33mPlayer 1's" ++ [ESC]
                         ++ s!"[0m Turn" ++ [NL]
                 else [] ++ [ESC] ++ s!"[31mPlayer 2's" ++ [ESC]
                         ++ s!"[0m Turn" ++ [NL])) as [s' Hs'].
    + intros row s Hrow. apply elem_of_range_desc in Hrow.
      unfold to_string_row.
      destruct (for_acc_ok (range 0 (fst (size b))) (to_string_cell b row) s)
        as [s1 ->]; [|simpl; eauto].
      intros col s2 Hcol. apply elem_of_range in Hcol.
      apply to_string_cell_ok; lia.
    + cbv zeta. rewrite Hs'. simpl. eauto.
  - intros Hlen Hrows. unfold to_string. cbv zeta.
    pose proof (len_nonneg (_board b)) as Hnn.
    assert (Hrange : range_desc (snd (size b) - 1) (-1)
                     = (snd (size b) - 1)
                         :: range_desc (snd (size b) - 2) (-1)).
    { unfold range_desc.
      replace (snd (size b) - 1 - -1)
        with ((snd (size b) - 2 - -1) + 1) by lia.
      rewrite seqZ_app by lia. rewrite rev_app_distr.
      rewrite (seqZ_cons _ 1) by lia. rewrite seqZ_nil by lia.
      simpl. f_equal. lia. }
    rewrite Hrange. simpl.
    assert (Hrow : forall s,
      to_string_row b (snd (size b) - 1) s = Raise IndexError).
    { intros s. unfold to_string_row.
      assert (Hsplit : range 0 (fst (size b))
                = range 0 (len (_board b))
                    ++ len (_board b)
                    :: range (len (_board b) + 1) (fst (size b))).
      { unfold range.
        replace (fst (size b) - 0)
          with ((len (_board b) - 0) + (fst (size b) - len (_board b)))
          by lia.
        rewrite seqZ_app by lia. f_equal.
        rewrite seqZ_cons by lia. f_equal; [lia|f_equal; lia]. }
      rewrite Hsplit.
      rewrite (for_acc_raise _ _ _ _ IndexError); [reflexivity| |].
      - intros col s2 Hcol. apply elem_of_range in Hcol.
        apply to_string_cell_ok; lia.
      - intros s2. unfold to_string_cell.
        rewrite getitem_beyond by lia. reflexivity. }
    now rewrite Hrow.
Qed.

Lemma to_string_columns_witness :
  to_string (snd (set_position s!"1 2 1" (Game.init 7 6 4)))
  = Raise IndexError.
Proof.
  apply (proj2 (to_string_columns
                  (snd (set_position s!"1 2 1" (Game.init 7 6 4))))).
  - vm_compute. reflexivity.
  - vm_compute. discriminate.
Defined.

(** ** Undo on a column of the board *)

(** X20.  [delete_move_at_column] on a column of the board: from an empty
    column nothing is taken, the answer is [False] and the board is as
    before; from any other column the top piece is taken, the turn passes
    back, the answer is [True], and the result is "no result yet" whatever
    the board still shows. *)
Theorem undo_in_range b col c :
  0 <= col -> _board b !! Z.to_nat col = Some c ->
  (c = [] -> delete_move_at_column col b = (Ok false, b))
  /\ (c <> [] ->
      delete_move_at_column col b = (Ok true, lifted (Z.to_nat col) b)
      /\ get_result (lifted (Z.to_nat col) b) = 0
      /\ _board (lifted (Z.to_nat col) b)
         = <[Z.to_nat col := removelast c]> (_board b)).
Proof.
  intros Hcol Hlook. rewrite delete_move_unfold.
  rewrite (getitem_inside _ _ c Hcol Hlook).
  split.
  - intros ->. reflexivity.
  - intros Hne. destruct c as [|p c]; [congruence|].
    change (len (p :: c) =? 0) with false. cbv iota.
    rewrite index_inside.
    + split; [reflexivity|]. split; [reflexivity|].
      simpl. apply list_eq. intros i.
      destruct (decide (i = Z.to_nat col)) as [->|Hi].
      * rewrite list_lookup_alter_eq, Hlook.
        rewrite list_lookup_insert_eq; [reflexivity|].
        now apply lookup_lt_Some in Hlook.
      * rewrite list_lookup_alter_ne, list_lookup_insert_ne by congruence.
        reflexivity.
    + apply lookup_lt_Some in Hlook. unfold len. lia.
Qed.

Lemma undo_in_range_witness :
  delete_move_at_column 3 (snd (play [3] (Game.init 7 6 4)))
  = (Ok true, lifted 3 (snd (play [3] (Game.init 7 6 4)))).
Proof.
  destruct (undo_in_range (snd (play [3] (Game.init 7 6 4))) 3 [false])
    as [_ H]; [lia|reflexivity|].
  destruct H as [H _]; [discriminate|exact H].
Defined.

(** ** The result and the position *)

(** X24.  The result is read off the columns alone.  On two boards with the
    same columns, size and run length, whatever their turn and their old
    result, [check_result] returns or raises alike, and when it returns it
    writes the same result. *)
Theorem check_result_reads_columns b b' :
  _board b = _board b' -> size b = size b' ->
  connect_num b = connect_num b' ->
  fst (check_result b) = fst (check_result b')
  /\ (fst (check_result b) = Ok tt ->
      _result (snd (check_result b)) = _result (snd (check_result b'))).
Proof.
  destruct b as [bd sz cn r wr t wl], b' as [bd' sz' cn' r' wr' t' wl'].
  simpl. intros <- <- <-.
  assert (Hscan :
    first_found [scan_rising; scan_falling; scan_row; scan_column]
                (mkBoard bd sz cn r wr t wl)
    = first_found [scan_rising; scan_falling; scan_row; scan_column]
                  (mkBoard bd sz cn r' wr' t' wl')) by reflexivity.
  unfold check_result.
  change (all_full (mkBoard bd sz cn r' wr' t' wl'))
    with (all_full (mkBoard bd sz cn r wr t wl)).
  destruct (all_full _); [now split|].
  rewrite <- Hscan.
  destruct (first_found _ _) as [[v|]|e]; simpl; split; try reflexivity;
    discriminate.
Qed.

Lemma check_result_reads_columns_witness :
  fst (check_result (snd (play [3; 3; 4] (Game.init 7 6 4))))
  = fst (check_result
           (set_turn_flag false (snd (play [3; 3; 4] (Game.init 7 6 4)))))
  /\ (fst (check_result (snd (play [3; 3; 4] (Game.init 7 6 4)))) = Ok tt ->
      _result (snd (check_result (snd (play [3; 3; 4] (Game.init 7 6 4)))))
      = _result (snd (check_result
           (set_turn_flag false (snd (play [3; 3; 4] (Game.init 7 6 4))))))).
Proof.
  apply (check_result_reads_columns (snd (play [3; 3; 4] (Game.init 7 6 4)))
           (set_turn_flag false (snd (play [3; 3; 4] (Game.init 7 6 4)))));
    reflexivity.
Defined.
